(** * Spike-train decoding pipeline of [Fig6/analysis.py]

    A shallow embedding of the analysis module: frequency inference by the
    superposition method ([infer_frequency]), the ROC scorer
    ([discriminate]), the parameter grid ([create_param_range]), the sweep
    drivers, the pairwise grid ([discrimination_combinations]) and the
    persistence helpers ([save] / [load]).

    Numbers.  The module computes on IEEE doubles.  Here
    - the values a caller can write down (spike times, sweep levels, bin
      positions, tuning parameters, ROC rates) are rationals [Q], computed
      exactly, inside [np_float], which adds the three non-finite doubles;
    - the two kernel densities, which go through [np.exp], are reals [R].
    Rounding, overflow and underflow of doubles are not modelled.

    Exceptions.  A Python call that can raise returns [result]; [try/except]
    is a match on it. *)

From Stdlib Require Import String Ascii.
From Stdlib Require Import List Sorted SetoidList ZArith QArith Qround Qabs.
From Stdlib Require Import Reals Qreals Lra Lia Bool.
From Stdlib Require Lqa.
From stdpp Require gmap strings.
Import ListNotations.

Open Scope Q_scope.

(* ================================================================== *)
(** * Part I: definitions *)
(* ================================================================== *)

(** ** Python exceptions and fallible computations *)

Inductive py_exn : Type :=
| ValueError
| IndexError
| KeyError
| ZeroDivisionError
| FileNotFoundError.

Inductive result (A : Type) : Type :=
| Ok (a : A)
| Raise (e : py_exn).

Arguments Ok {A} a.
Arguments Raise {A} e.

Definition bind {A B : Type} (m : result A) (k : A -> result B) : result B :=
  match m with
  | Ok a => k a
  | Raise e => Raise e
  end.

Notation "x <- m ;; k" := (bind m (fun x => k))
  (at level 100, m at level 99, right associativity).

(** [try: body except: return dflt] with a bare [except]. *)
Definition try_except {A : Type} (body : result A) (dflt : A) : A :=
  match body with
  | Ok a => a
  | Raise _ => dflt
  end.

(** ** Doubles: finite values and the three non-finite ones *)

Inductive np_float : Type :=
| Finite (q : Q)
| PosInf
| NegInf
| NaN.

(** [np.isfinite]. *)
Definition isfinite (x : np_float) : bool :=
  match x with
  | Finite _ => true
  | _ => false
  end.

(** Being the same double: the rationals are compared by value. *)
Definition np_eq (x y : np_float) : Prop :=
  match x, y with
  | Finite p, Finite q => p == q
  | PosInf, PosInf => True
  | NegInf, NegInf => True
  | NaN, NaN => True
  | _, _ => False
  end.

Definition np_neg (x : np_float) : np_float :=
  match x with
  | Finite q => Finite (- q)
  | PosInf => NegInf
  | NegInf => PosInf
  | NaN => NaN
  end.

Definition np_add (x y : np_float) : np_float :=
  match x, y with
  | NaN, _ | _, NaN => NaN
  | Finite p, Finite q => Finite (p + q)
  | PosInf, NegInf | NegInf, PosInf => NaN
  | PosInf, _ | _, PosInf => PosInf
  | NegInf, _ | _, NegInf => NegInf
  end.

Definition np_sub (x y : np_float) : np_float := np_add x (np_neg y).

(** Sign of a double, for products with an infinity. *)
Definition np_sign (x : np_float) : comparison :=
  match x with
  | Finite q => 0 ?= q
  | PosInf => Lt
  | NegInf => Gt
  | NaN => Eq
  end.

Definition np_mul (x y : np_float) : np_float :=
  match x, y with
  | NaN, _ | _, NaN => NaN
  | Finite p, Finite q => Finite (p * q)
  | _, _ =>
      match np_sign x, np_sign y with
      | Eq, _ | _, Eq => NaN
      | Lt, Lt | Gt, Gt => PosInf
      | _, _ => NegInf
      end
  end.

(** [x < y] on doubles; every comparison with NaN is false. *)
Definition np_ltb (x y : np_float) : bool :=
  match x, y with
  | NaN, _ | _, NaN => false
  | Finite p, Finite q => negb (Qle_bool q p)
  | NegInf, NegInf => false
  | NegInf, _ => true
  | _, PosInf => match x with PosInf => false | _ => true end
  | _, _ => false
  end.

Definition np_leb (x y : np_float) : bool :=
  match x, y with
  | NaN, _ | _, NaN => false
  | Finite p, Finite q => Qle_bool p q
  | NegInf, _ => true
  | _, PosInf => true
  | _, _ => false
  end.

(** [a > b] on sweep levels. *)
Definition Qgtb (a b : Q) : bool := negb (Qle_bool a b).

(** ** numpy helpers *)

(** [np.arange(start, stop, step)]: [ceil((stop - start) / step)] values
    [start + i * step]; a zero step raises.  The length is taken in exact
    arithmetic: it is the length NumPy computes for integer arguments and
    wherever the quotient is exact on doubles; a quotient that rounds
    across an integer ([(1.3 - 1.0) / 0.1]) gives NumPy one value more. *)
Definition arange (start stop step : Q) : result (list Q) :=
  if Qeq_bool step 0 then Raise ZeroDivisionError
  else
    let n := Z.to_nat (Qceiling ((stop - start) / step)) in
    Ok (map (fun i => start + inject_Z (Z.of_nat i) * step) (seq 0 n)).

(** [np.diff] of a one-dimensional array: [a[1:] - a[:-1]]. *)
Fixpoint np_diff (a : list Q) : list Q :=
  match a with
  | [] => []
  | x :: rest =>
      match rest with
      | [] => []
      | y :: _ => (y - x) :: np_diff rest
      end
  end.

(** ** [create_param_range] *)

Definition create_param_range (x0 x1 res : Q) : result (list Q) :=
  arange x0 (x1 + res) res.

(** ** [sklearn.metrics.roc_curve] and [sklearn.metrics.auc]

    [discriminate] calls these two functions of scikit-learn.  They are
    embedded step by step from the library's [_binary_clf_curve],
    [roc_curve] (with its default [drop_intermediate=True]) and [auc].
    The thresholds, which [discriminate] ignores, are left out. *)

(** [assert_all_finite(y_score)]. *)
Fixpoint all_finite (l : list np_float) : result (list Q) :=
  match l with
  | [] => Ok []
  | Finite q :: l' => qs <- all_finite l' ;; Ok (q :: qs)
  | _ :: _ => Raise ValueError
  end.

(** [np.argsort(y_score, kind="mergesort")]: the stable ascending order,
    here carried by the (score, label) pairs themselves. *)
Fixpoint insert_by_score (x : Q * bool) (l : list (Q * bool)) : list (Q * bool) :=
  match l with
  | [] => [x]
  | y :: l' =>
      if Qle_bool (fst x) (fst y) then x :: l else y :: insert_by_score x l'
  end.

Definition stable_sort_by_score (l : list (Q * bool)) : list (Q * bool) :=
  fold_right insert_by_score [] l.

(** [np.where(np.diff(y_score))[0]]: the positions followed by a different
    score. *)
Definition distinct_value_indices (y_score : list Q) : list nat :=
  let d := np_diff y_score in
  filter (fun i => negb (Qeq_bool (nth i d 0) 0)) (seq 0 (length d)).

(** [np.cumsum]. *)
Fixpoint cumsum_from (acc : Q) (l : list Q) : list Q :=
  match l with
  | [] => []
  | x :: l' => (acc + x) :: cumsum_from (acc + x) l'
  end.

Definition cumsum (l : list Q) : list Q := cumsum_from 0 l.

Definition bool_to_Q (b : bool) : Q := if b then 1 else 0.

Definition nat_to_Q (n : nat) : Q := inject_Z (Z.of_nat n).

(** [_binary_clf_curve]: false and true positive counts at every distinct
    score, scores taken in decreasing order.  On empty input the index
    [y_true.size - 1] is out of bounds. *)
Definition binary_clf_curve (y_true : list Z) (y_score : list np_float)
    (pos_label : Z) : result (list Q * list Q) :=
  if negb (length y_true =? length y_score)%nat then Raise ValueError
  else
    scores <- all_finite y_score ;;
    let labelled := combine scores (map (Z.eqb pos_label) y_true) in
    let sorted := rev (stable_sort_by_score labelled) in
    let y_score := map fst sorted in
    let y_true := map snd sorted in
    match sorted with
    | [] => Raise IndexError
    | _ :: _ =>
        let threshold_idxs :=
          distinct_value_indices y_score ++ [(length y_true - 1)%nat] in
        let csum := cumsum (map bool_to_Q y_true) in
        let tps := map (fun i => nth i csum 0) threshold_idxs in
        let fps := map (fun i => 1 + nat_to_Q i - nth i csum 0) threshold_idxs in
        Ok (fps, tps)
    end.

(** [np.r_[True, np.logical_or(np.diff(fps, 2), np.diff(tps, 2)), True]]. *)
Fixpoint logical_or_nonzero (a b : list Q) : list bool :=
  match a, b with
  | x :: a', y :: b' =>
      (negb (Qeq_bool x 0) || negb (Qeq_bool y 0)) :: logical_or_nonzero a' b'
  | _, _ => []
  end.

Definition optimal_mask (fps tps : list Q) : list bool :=
  true :: logical_or_nonzero (np_diff (np_diff fps)) (np_diff (np_diff tps))
       ++ [true].

(** [a[np.where(mask)[0]]]. *)
Fixpoint select_mask {A : Type} (mask : list bool) (a : list A) : list A :=
  match mask, a with
  | m :: mask', x :: a' =>
      if m then x :: select_mask mask' a' else select_mask mask' a'
  | _, _ => []
  end.

(** [counts / counts[-1]], or all NaN (with a warning, not an exception)
    when the class is absent. *)
Definition rates (counts : list Q) : list np_float :=
  let total := last counts 0 in
  if Qle_bool total 0 then repeat NaN (length counts)
  else map (fun c => Finite (c / total)) counts.

Definition roc_curve (y_true : list Z) (y_score : list np_float)
    (pos_label : Z) : result (list np_float * list np_float) :=
  curve <- binary_clf_curve y_true y_score pos_label ;;
  let '(fps, tps) := curve in
  let '(fps, tps) :=
    if (2 <? length fps)%nat
    then (select_mask (optimal_mask fps tps) fps,
          select_mask (optimal_mask fps tps) tps)
    else (fps, tps) in
  let tps := 0 :: tps in
  let fps := 0 :: fps in
  Ok (rates fps, rates tps).

(** [np.diff] on doubles. *)
Fixpoint np_diff_float (a : list np_float) : list np_float :=
  match a with
  | [] => []
  | x :: rest =>
      match rest with
      | [] => []
      | y :: _ => np_sub y x :: np_diff_float rest
      end
  end.

(** The summands [d * (y[1:] + y[:-1]) / 2.0] of [np.trapz(y, x)]. *)
Fixpoint trapz_terms (y x : list np_float) : list np_float :=
  match y, x with
  | y0 :: yrest, x0 :: xrest =>
      match yrest, xrest with
      | y1 :: _, x1 :: _ =>
          np_mul (np_mul (np_sub x1 x0) (np_add y1 y0)) (Finite (1#2))
          :: trapz_terms yrest xrest
      | _, _ => []
      end
  | _, _ => []
  end.

Definition np_sum_float (l : list np_float) : np_float :=
  fold_left np_add l (Finite 0).

Definition trapz (y x : list np_float) : np_float :=
  np_sum_float (trapz_terms y x).

(** [auc(x, y)]: trapezoid area; [x] must be monotone. *)
Definition auc (x y : list np_float) : result np_float :=
  if negb (length x =? length y)%nat then Raise ValueError
  else if (length x <? 2)%nat then Raise ValueError
  else
    let dx := np_diff_float x in
    if existsb (fun d => np_ltb d (Finite 0)) dx then
      if forallb (fun d => np_leb d (Finite 0)) dx
      then Ok (np_mul (Finite (-1)) (trapz y x))
      else Raise ValueError
    else Ok (np_mul (Finite 1) (trapz y x)).

(** ** [discriminate] *)

(** [d[~np.isfinite(d)] = 0]. *)
Definition replace_nonfinite (d : list np_float) : list np_float :=
  map (fun v => if negb (isfinite v) then Finite 0 else v) d.

(** [d[np.isfinite(d)].tolist()]. *)
Definition keep_finite (d : list np_float) : list np_float :=
  filter isfinite d.

Definition sanitize (d : list np_float) : list np_float :=
  keep_finite (replace_nonfinite d).

(** The rational a sanitized entry holds. *)
Definition sanitized_value (v : np_float) : Q :=
  match v with
  | Finite q => q
  | _ => 0
  end.

(** The body of the [try] block: the ROC curve of the scores and the area
    under it. *)
Definition roc_auc (true_value : list Z) (score : list np_float)
    : result np_float :=
  curve <- roc_curve true_value score 1%Z ;;
  let '(false_positive_rate, true_positive_rate) := curve in
  auc false_positive_rate true_positive_rate.

(** The scores and labels handed to the [try] block: the collections in
    canonical order, sanitized, then concatenated. *)
Definition labelled_scores (d1 d2 : list np_float) (a b : Q)
    : list Z * list np_float :=
  let '(d1, d2) := if Qgtb a b then (d2, d1) else (d1, d2) in
  let d1 := sanitize d1 in
  let d2 := sanitize d2 in
  let score := d1 ++ d2 in
  let true_value := repeat 0%Z (length d1) ++ repeat 1%Z (length d2) in
  (true_value, score).

Definition discriminate (d1 d2 : list np_float) (a b : Q) : np_float :=
  let '(true_value, score) := labelled_scores d1 d2 a b in
  try_except (roc_auc true_value score) (Finite 0).

(** ** Dictionaries keyed by sweep level

    A Python [dict] in insertion order: an association list whose keys are
    pairwise different.  A lookup compares keys by value. *)

Definition dict (V : Type) : Type := list (Q * V).

Definition dict_keys {V : Type} (d : dict V) : list Q := map fst d.

Definition dict_values {V : Type} (d : dict V) : list V := map snd d.

(** [d[k]]. *)
Fixpoint dict_get {V : Type} (d : dict V) (k : Q) : result V :=
  match d with
  | [] => Raise KeyError
  | (k', v) :: d' => if Qeq_bool k' k then Ok v else dict_get d' k
  end.

(** [d[k] = v]: overwrite the entry of an equal key, else append. *)
Fixpoint dict_set {V : Type} (d : dict V) (k : Q) (v : V) : dict V :=
  match d with
  | [] => [(k, v)]
  | (k', v') :: d' =>
      if Qeq_bool k' k then (k', v) :: d' else (k', v') :: dict_set d' k v
  end.

(** The invariant of a [dict]: no two keys are equal. *)
Definition distinct_keys {V : Type} (d : dict V) : Prop :=
  NoDupA Qeq (dict_keys d).

(** A list comprehension whose element expression can raise. *)
Fixpoint map_result {A B : Type} (f : A -> result B) (l : list A)
    : result (list B) :=
  match l with
  | [] => Ok []
  | x :: l' => y <- f x ;; ys <- map_result f l' ;; Ok (y :: ys)
  end.

(** ** [discrimination_combinations] *)

(** [np.meshgrid(x, y)] with the default [indexing="xy"]: both grids have
    [len(y)] rows and [len(x)] columns, [xx[i][j] = x[j]] and
    [yy[i][j] = y[i]]. *)
Definition meshgrid (x y : list Q) : list (list Q) * list (list Q) :=
  (map (fun _ => x) y, map (fun yi => map (fun _ => yi) x) y).

(** [np.ravel] of a two-dimensional array, row by row. *)
Definition ravel {A : Type} (m : list (list A)) : list A := concat m.

Fixpoint rows_of {A : Type} (rows cols : nat) (flat : list A) : list (list A) :=
  match rows with
  | O => []
  | S r => firstn cols flat :: rows_of r cols (skipn cols flat)
  end.

(** [z.reshape((rows, cols))]; the sizes must agree. *)
Definition reshape {A : Type} (flat : list A) (rows cols : nat)
    : result (list (list A)) :=
  if (length flat =? rows * cols)%nat then Ok (rows_of rows cols flat)
  else Raise ValueError.

Definition discrimination_combinations (infered_values : dict (list np_float))
    : result (list (list Q) * list (list Q) * list (list np_float)) :=
  let levels := dict_keys infered_values in
  let x := levels in
  let y := levels in
  let '(xx, yy) := meshgrid x y in
  z <- map_result
         (fun '(x, y) =>
            dx <- dict_get infered_values x ;;
            dy <- dict_get infered_values y ;;
            Ok (discriminate dx dy x y))
         (combine (ravel xx) (ravel yy)) ;;
  zz <- reshape z (length y) (length x) ;;
  Ok (xx, yy, zz).

(** The score [discrimination_combinations] computes for the pair of levels
    [(x, y)]; a key that is absent (there is none among the grid pairs)
    reads as the empty collection. *)
Definition level_score (infered_values : dict (list np_float)) (p : Q * Q)
    : np_float :=
  discriminate (try_except (dict_get infered_values (fst p)) [])
               (try_except (dict_get infered_values (snd p)) [])
               (fst p) (snd p).

(** The InferredMeasure of the specification's example:
    [{1: [1, 1], 2: [5, 5]}]. *)
Definition two_level_measures : dict (list np_float) :=
  [(1, [Finite 1; Finite 1]); (2, [Finite 5; Finite 5])].

(** ** Real-valued arrays *)

Definition R_ltb (x y : R) : bool := if Rlt_dec x y then true else false.

Definition R_leb (x y : R) : bool := if Rle_dec x y then true else false.

Definition R_eqb (x y : R) : bool := if Req_dec_T x y then true else false.

(** [a.sum()]. *)
Fixpoint R_sum (a : list R) : R :=
  match a with
  | [] => 0%R
  | v :: a' => (v + R_sum a')%R
  end.

Fixpoint zip_with {A B C : Type} (f : A -> B -> C) (a : list A) (b : list B)
    : list C :=
  match a, b with
  | x :: a', y :: b' => f x y :: zip_with f a' b'
  | _, _ => []
  end.

(** [np.vstack(rows)]: an empty sequence of rows raises. *)
Definition vstack {A : Type} (rows : list (list A)) : result (list (list A)) :=
  match rows with
  | [] => Raise ValueError
  | _ :: _ => Ok rows
  end.

(** [np.sum(m, axis=0)] of stacked rows: the sum of each column. *)
Definition sum_axis0 (m : list (list R)) : list R :=
  match m with
  | [] => []
  | row :: rows => fold_left (zip_with Rplus) rows row
  end.

(** [np.argmax]: the first position of the largest value; raises on an
    empty array. *)
Fixpoint argmax_from (best_i : nat) (best : R) (i : nat) (a : list R) : nat :=
  match a with
  | [] => best_i
  | v :: a' =>
      if R_ltb best v then argmax_from i v (S i) a'
      else argmax_from best_i best (S i) a'
  end.

Definition argmax (a : list R) : result nat :=
  match a with
  | [] => Raise ValueError
  | v :: a' => Ok (argmax_from 0 v 1 a')
  end.

(** [a[i]] for one index. *)
Definition index {A : Type} (a : list A) (i : nat) : result A :=
  match nth_error a i with
  | Some v => Ok v
  | None => Raise IndexError
  end.

(** [a[idxs]] for an array of indices. *)
Definition take {A : Type} (a : list A) (idxs : list nat) : result (list A) :=
  map_result (index a) idxs.

(** [c / x] for a float64 scalar [x]: dividing by zero gives an infinity or
    NaN (with a warning), not an exception. *)
Definition np_true_divide (c x : Q) : np_float :=
  if Qeq_bool x 0 then
    match 0 ?= c with
    | Lt => PosInf
    | Gt => NegInf
    | Eq => NaN
    end
  else Finite (c / x).

(** ** [gaussian] *)

(** The density at one point of the domain. *)
Definition gaussian_at (x mu sig : Q) : R :=
  (1 / (sqrt (2 * PI) * Q2R sig)
   * exp (- ((Q2R x - Q2R mu) / Q2R sig) ^ 2 / 2))%R.

(** The height of the kernel, reached at [x = mu]. *)
Definition gaussian_height (sig : Q) : R := (1 / (sqrt (2 * PI) * Q2R sig))%R.

Definition gaussian (x : list Q) (mu sig : Q) : list R :=
  map (fun xi => gaussian_at xi mu sig) x.

(** ** [scipy.signal.find_peaks(x, prominence=prom)]

    Embedded from SciPy's [_local_maxima_1d], [_peak_prominences] (without
    a window) and the selection [pmin <= prominences]. *)

(** The inner loop of [_local_maxima_1d]: step over the samples equal to
    [x[i]]. *)
Fixpoint look_ahead (fuel : nat) (x : list R) (i i_ahead i_max : nat) : nat :=
  match fuel with
  | O => i_ahead
  | S fuel' =>
      if (i_ahead <? i_max)%nat && R_eqb (nth i_ahead x 0%R) (nth i x 0%R)
      then look_ahead fuel' x i (S i_ahead) i_max
      else i_ahead
  end.

(** The outer loop of [_local_maxima_1d], from sample [i]: the midpoints of
    the plateaus that rise on the left and fall on the right. *)
Fixpoint local_maxima_loop (fuel : nat) (x : list R) (i i_max : nat)
    : list nat :=
  match fuel with
  | O => []
  | S fuel' =>
      if (i <? i_max)%nat then
        if R_ltb (nth (i - 1) x 0%R) (nth i x 0%R) then
          let i_ahead := look_ahead (length x) x i (i + 1) i_max in
          if R_ltb (nth i_ahead x 0%R) (nth i x 0%R) then
            let left_edge := i in
            let right_edge := (i_ahead - 1)%nat in
            ((left_edge + right_edge) / 2)%nat
              :: local_maxima_loop fuel' x (i_ahead + 1) i_max
          else local_maxima_loop fuel' x (i + 1) i_max
        else local_maxima_loop fuel' x (i + 1) i_max
      else []
  end.

(** The first and the last sample cannot be maxima. *)
Definition local_maxima_1d (x : list R) : list nat :=
  local_maxima_loop (length x) x 1 (length x - 1).

(** One base search of [_peak_prominences]: walk away from the peak while
    the samples do not exceed it, keeping the lowest one. *)
Fixpoint walk_min (peak_height cur_min : R) (samples : list R) : R :=
  match samples with
  | [] => cur_min
  | v :: rest =>
      if R_leb v peak_height then
        walk_min peak_height (if R_ltb v cur_min then v else cur_min) rest
      else cur_min
  end.

(** [prominences[peak] = x[peak] - max(left_min, right_min)]; the walks run
    over [x[peak], x[peak-1], ..., x[0]] and [x[peak], ..., x[-1]]. *)
Definition peak_prominence (x : list R) (peak : nat) : R :=
  let height := nth peak x 0%R in
  let left_min := walk_min height height (rev (firstn (S peak) x)) in
  let right_min := walk_min height height (skipn peak x) in
  (height - Rmax left_min right_min)%R.

(** [prominence=None] keeps every local maximum. *)
Definition find_peaks (x : list R) (prominence : option R) : list nat :=
  let peaks := local_maxima_1d x in
  match prominence with
  | None => peaks
  | Some pmin => filter (fun p => R_leb pmin (peak_prominence x p)) peaks
  end.

(** ** [infer_frequency] *)

(** Steps 1 and 2 of the [try] block: the ISI bins and the normalised
    ISI density [isi_hist_g]. *)
Definition isi_density (spike_times : list Q) (t1 res : Q)
    : result (list Q * list R) :=
  isi_bin <- arange 0 350 res ;;
  let isi := np_diff spike_times in
  rows <- vstack (map (fun i => gaussian isi_bin i t1) isi) ;;
  let isi_hist_g := sum_axis0 rows in
  let isi_hist_g := map (fun v => (v / R_sum isi_hist_g)%R) isi_hist_g in
  Ok (isi_bin, isi_hist_g).

(** Steps 3 and 4: the peaks of the density and the differences between
    their bin positions, [pk_location_diffs]. *)
Definition peak_location_diffs (spike_times : list Q) (t1 res : Q)
    (prom : option Q) : result (list Q) :=
  density <- isi_density spike_times t1 res ;;
  let '(isi_bin, isi_hist_g) := density in
  let pks := find_peaks isi_hist_g (option_map Q2R prom) in
  locations <- take isi_bin pks ;;
  Ok (np_diff locations).

(** The body of the [try] block. *)
Definition infer_frequency_try (spike_times : list Q)
    (t1 t2 res : Q) (prom : option Q) (time_step : Q) : result np_float :=
  pk_location_diffs <- peak_location_diffs spike_times t1 res prom ;;
  peak_loc_bins <- arange 0 15 time_step ;;
  rows <- vstack (map (fun pk => gaussian peak_loc_bins pk t2) pk_location_diffs) ;;
  let peak_hist_g := sum_axis0 rows in
  best <- argmax peak_hist_g ;;
  position <- index peak_loc_bins best ;;
  Ok (np_true_divide 1000 position).

Definition infer_frequency (spike_times : list Q)
    (t1 t2 res : Q) (prom : option Q) (time_step : Q) : np_float :=
  try_except (infer_frequency_try spike_times t1 t2 res prom time_step) NaN.

(** The call with the default tuning parameters
    [t1=0.6, t2=0.3, res=0.1, prom=0.5, time_step=0.01]. *)
Definition infer_frequency_default (spike_times : list Q) : np_float :=
  infer_frequency spike_times (6#10) (3#10) (1#10) (Some (1#2)) (1#100).

(** [infer_amplitude]: the number of spikes. *)
Definition infer_amplitude (spike_times : list Q) : nat := length spike_times.

(** A spike train is perfectly periodic with period [T] when it has at
    least two spikes and consecutive spike times differ by exactly [T]. *)
Definition periodic (T : Q) (spike_times : list Q) : Prop :=
  (2 <= length spike_times)%nat /\ Forall (fun isi => isi == T) (np_diff spike_times).

(** ** The random number generator

    NumPy's global generator is a stream of samples of [0, 1) and a
    cursor; every draw reads the sample under the cursor and moves it. *)

Record rng : Type := { samples : nat -> Q; cursor : nat }.

Definition advance (g : rng) (n : nat) : rng :=
  {| samples := samples g; cursor := (cursor g + n)%nat |}.

Definition random_sample (g : rng) : Q * rng :=
  (samples g (cursor g), advance g 1).

(** [np.random.uniform(low, high, size)]: [size] successive draws, each
    scaled to [low + (high - low) * sample]. *)
Fixpoint uniform (low high : Q) (size : nat) (g : rng) : list Q * rng :=
  match size with
  | O => ([], g)
  | S size' =>
      let '(u, g) := random_sample g in
      let '(rest, g) := uniform low high size' g in
      ((low + (high - low) * u) :: rest, g)
  end.

(** The values [uniform] returns, read off the stream. *)
Definition uniform_draws (low high : Q) (g : rng) (size : nat) : list Q :=
  map (fun k => low + (high - low) * samples g (cursor g + k)%nat) (seq 0 size).

(** ** The simulated model *)

(** What a stimulus parameter is set to: one value for all units, or an
    array with one value per unit. *)
Inductive stimulus : Type :=
| Scalar (v : Q)
| PerUnit (v : list Q).

(** Modelled from the spec: the [Model] class is not part of the sources.
    These are the operations the spec lists for it: [store(tag)],
    [restore(tag)], [set_stimulus_current(value)], the settable attribute
    [f] and [run(duration)]. *)
Inductive model_call : Type :=
| Store (tag : string)
| Restore (tag : string)
| SetStimulusCurrent (value : stimulus)
| SetF (value : stimulus)
| Run (t_max : Q).

(** Modelled from the spec: the [Model] class is not part of the sources.
    A model has its unit count [neurons.N] and, after a run, the mapping
    [spike_train] from unit to spike train (here the list of its values,
    in seconds).  The model is deterministic: what [spike_train] holds is
    a function of the calls made on the model so far. *)
Record Model : Type := {
  neurons_N : nat;
  spike_train : list model_call -> list (list Q)
}.

(** A stimulus parameter is shared when all units receive one value. *)
Definition shared_value (s : stimulus) : Prop :=
  match s with
  | Scalar _ => True
  | PerUnit l => exists v, Forall (fun x => x == v) l
  end.

(** brian2 units, in SI base units: spike times are in seconds. *)
Definition Hz : Q := 1.
Definition ms : Q := 1 # 1000.

(** ** The sweep drivers *)

(** The state a sweep threads through its loop: the two result
    dictionaries, the calls made on the model, and the generator. *)
Record sweep (M : Type) : Type := {
  spike_times_of : dict (list (list Q));
  infered_of : dict (list M);
  calls : list model_call;
  gen : rng
}.

Arguments spike_times_of {M} _.
Arguments infered_of {M} _.
Arguments calls {M} _.
Arguments gen {M} _.

(** The calls of one iteration of [evaluate_amplitude_discrimination]. *)
Definition amplitude_calls (unit t_max amp : Q) (f : list Q) : list model_call :=
  [Restore "initial"%string;
   SetStimulusCurrent (Scalar (amp * unit));
   SetF (PerUnit (map (fun v => v * Hz) f));
   Run t_max].

(** The body of the loop of [evaluate_amplitude_discrimination]. *)
Definition amplitude_step (model : Model) (unit f0 f1 t_max : Q)
    (st : sweep nat) (amp : Q) : sweep nat :=
  let '(f, g) := uniform f0 f1 (neurons_N model) (gen st) in
  let calls := calls st ++ amplitude_calls unit t_max amp f in
  let trains := spike_train model calls in
  {| spike_times_of := dict_set (spike_times_of st) amp trains;
     infered_of := dict_set (infered_of st) amp (map infer_amplitude trains);
     calls := calls;
     gen := g |}.

(** [evaluate_amplitude_discrimination(model, a0=, a1=, res=, unit=,
    f0=100, f1=600, t_max=10*second)], started after the calls [calls0]
    with the generator [g0]. *)
Definition evaluate_amplitude_discrimination (model : Model)
    (a0 a1 res unit f0 f1 t_max : Q) (calls0 : list model_call) (g0 : rng)
    : result (sweep nat) :=
  trial_amplitude <- create_param_range a0 a1 res ;;
  let st := {| spike_times_of := []; infered_of := [];
               calls := calls0 ++ [Store "initial"%string]; gen := g0 |} in
  Ok (fold_left (amplitude_step model unit f0 f1 t_max) trial_amplitude st).

(** The inference call of the frequency sweep.  With [t2=None] the second
    kernel cannot be evaluated: the pipeline raises before it returns,
    whatever the spikes, and the sentinel comes back. *)
Definition infer_frequency_call (t1 : Q) (t2 prom : option Q)
    (infer_res time_step : Q) (x : list Q) : np_float :=
  match t2 with
  | None => NaN
  | Some t2 =>
      infer_frequency (map (fun t => t / ms) x) t1 t2 infer_res prom time_step
  end.

(** The calls of one iteration of [evaluate_frequency_discrimination]. *)
Definition frequency_calls (unit t_max freq : Q) (a : list Q) : list model_call :=
  [Restore "initial"%string;
   SetF (Scalar (freq * Hz));
   SetStimulusCurrent (PerUnit (map (fun v => v * unit) a));
   Run t_max].

(** The body of the loop of [evaluate_frequency_discrimination]. *)
Definition frequency_step (model : Model) (unit a0 a1 t_max : Q)
    (t1 t2 prom : option Q) (infer_res time_step : Q)
    (st : sweep np_float) (freq : Q) : sweep np_float :=
  let '(a, g) := uniform a0 a1 (neurons_N model) (gen st) in
  let calls := calls st ++ frequency_calls unit t_max freq a in
  let trains := spike_train model calls in
  {| spike_times_of := dict_set (spike_times_of st) freq trains;
     infered_of :=
       match t1 with
       | Some t1 =>
           dict_set (infered_of st) freq
             (map (infer_frequency_call t1 t2 prom infer_res time_step) trains)
       | None => infered_of st
       end;
     calls := calls;
     gen := g |}.

(** [evaluate_frequency_discrimination(model, f0=, f1=, res=, unit=, a0=50,
    a1=100, t_max=10*second, t1=None, t2=None, prom=None, infer_res=0.25,
    time_step=0.05)]. *)
Definition evaluate_frequency_discrimination (model : Model)
    (f0 f1 res unit a0 a1 t_max : Q) (t1 t2 prom : option Q)
    (infer_res time_step : Q) (calls0 : list model_call) (g0 : rng)
    : result (sweep np_float) :=
  trial_frequency <- create_param_range f0 f1 res ;;
  let st := {| spike_times_of := []; infered_of := [];
               calls := calls0 ++ [Store "initial"%string]; gen := g0 |} in
  Ok (fold_left
        (frequency_step model unit a0 a1 t_max t1 t2 prom infer_res time_step)
        trial_frequency st).

(** A model of two units that never spike, and a generator whose samples
    are 0, 1/4, 1/2, 3/4, 0, 0, ... *)
Definition silent_pair : Model :=
  {| neurons_N := 2; spike_train := fun _ => [[]; []] |}.

Definition quarter_steps : rng :=
  {| samples := fun k => if (k <? 4)%nat then inject_Z (Z.of_nat k) / 4 else 0;
     cursor := 0 |}.

(** ** Persistence: [save] and [load]

    The file system is a finite map from paths to file contents, with a
    test that tells where a file can be created (the directory exists).  [pickle.dump] and [pickle.load] are the codec
    [pickle_dumps] / [pickle_loads] of the objects saved. *)

Section Persistence.
Import stdpp.base stdpp.gmap stdpp.strings.

Context {SpikeTimes InferedValues : Type}.
Variable pickle_dumps : SpikeTimes * InferedValues -> list Byte.byte.
Variable pickle_loads : list Byte.byte -> result (SpikeTimes * InferedValues).

Record file_system : Type := {
  files : gmap string (list Byte.byte);
  can_create : string -> bool
}.

(** [Path(dir) / name]: an absolute [name] replaces the directory. *)
Definition path_join (dir name : string) : string :=
  match name with
  | String "/"%char _ => name
  | _ => (dir ++ "/" ++ name)%string
  end.

(** [Path('save_data') / f'{sim_name}_{sim_type}.pkl']. *)
Definition pkl_path (sim_name sim_type : string) : string :=
  path_join "save_data" (sim_name ++ "_" ++ sim_type ++ ".pkl")%string.

(** [open(path, 'wb')] followed by [pickle.dump]: the file is created or
    replaced. *)
Definition save (sim_name sim_type : string) (spike_times : SpikeTimes)
    (infered_values : InferedValues) (fs : file_system)
    : result file_system :=
  let path := pkl_path sim_name sim_type in
  if can_create fs path then
    Ok {| files := <[path := pickle_dumps (spike_times, infered_values)]>
                     (files fs);
          can_create := can_create fs |}
  else Raise FileNotFoundError.

(** [open(path, 'rb')] followed by [pickle.load]. *)
Definition load (sim_name sim_type : string) (fs : file_system)
    : result (SpikeTimes * InferedValues) :=
  match files fs !! pkl_path sim_name sim_type with
  | Some content => pickle_loads content
  | None => Raise FileNotFoundError
  end.

Definition load_amplitude (sim_name : string) := load sim_name "A".

Definition load_frequency (sim_name : string) := load sim_name "f".

Definition save_amplitude (sim_name : string) (spike_times : SpikeTimes)
    (infered_amplitude : InferedValues) :=
  save sim_name "A" spike_times infered_amplitude.

Definition save_frequency (sim_name : string) (spike_times : SpikeTimes)
    (infered_frequency : InferedValues) :=
  save sim_name "f" spike_times infered_frequency.

(** A file system with the [save_data] directory and no file in it. *)
Definition empty_save_data : file_system :=
  {| files := ∅;
     can_create := fun path => String.prefix "save_data/" path |}.
End Persistence.

(** A codec for pairs of single bytes: the pair is written as two bytes. *)
Definition two_bytes_dumps (obj : Byte.byte * Byte.byte) : list Byte.byte :=
  [fst obj; snd obj].

Definition two_bytes_loads (content : list Byte.byte)
    : result (Byte.byte * Byte.byte) :=
  match content with
  | [a; b] => Ok (a, b)
  | _ => Raise ValueError
  end.

(* ================================================================== *)
(** * Part II: properties *)
(* ================================================================== *)

(** ** [create_param_range] *)

Example create_param_range_half :
  create_param_range 0 1 (1#2) = Ok [0 + 0 * (1#2); 0 + 1 * (1#2); 0 + 2 * (1#2)].
Proof. reflexivity. Qed.

(** The length of an aligned grid: [k] steps from [x0] to [x1] give
    [k + 1] points. *)
Lemma aligned_grid_size (x0 x1 res : Q) (k : nat) :
  0 < res -> x1 == x0 + inject_Z (Z.of_nat k) * res ->
  Z.to_nat (Qceiling ((x1 + res - x0) / res)) = S k.
Proof.
  intros Hres Hx1.
  assert (Hq : (x1 + res - x0) / res == inject_Z (Z.of_nat (S k))).
  { rewrite Hx1, Nat2Z.inj_succ. unfold Z.succ. rewrite inject_Z_plus.
    field. intro E. rewrite E in Hres. discriminate. }
  rewrite Hq, Qceiling_Z. apply Nat2Z.id.
Qed.

Lemma arange_nonzero (start stop step : Q) :
  ~ step == 0 ->
  arange start stop step =
  Ok (map (fun i => start + inject_Z (Z.of_nat i) * step)
          (seq 0 (Z.to_nat (Qceiling ((stop - start) / step))))).
Proof.
  intro Hne. unfold arange.
  destruct (Qeq_bool step 0) eqn:E; [|reflexivity].
  apply Qeq_bool_iff in E. contradiction.
Qed.

(** An aligned grid in exact arithmetic: [k] steps of a positive [res]
    from [x0] reach [x1], and the grid is [x0, x0 + res, ..., x1]. *)
Lemma aligned_grid_exact (x0 x1 res : Q) (k : nat) :
  0 < res -> x1 == x0 + inject_Z (Z.of_nat k) * res ->
  exists l, create_param_range x0 x1 res = Ok l /\
            length l = S k /\
            (forall i, (i <= k)%nat ->
                       nth i l 0 == x0 + inject_Z (Z.of_nat i) * res) /\
            Forall (fun y => y <= x1) l /\
            nth k l 0 == x1.
Proof.
  intros Hres Hx1.
  unfold create_param_range.
  rewrite arange_nonzero
    by (intro E; rewrite E in Hres; discriminate).
  rewrite (aligned_grid_size x0 x1 res k Hres Hx1).
  set (g := fun i : nat => x0 + inject_Z (Z.of_nat i) * res).
  assert (Hnth : forall i, (i <= k)%nat -> nth i (map g (seq 0 (S k))) 0 = g i).
  { intros i Hi.
    rewrite (nth_indep _ 0 (g 0%nat)) by (rewrite length_map, length_seq; lia).
    rewrite map_nth, seq_nth by lia. reflexivity. }
  eexists. split; [reflexivity|]. split; [|split; [|split]].
  - rewrite length_map, length_seq. reflexivity.
  - intros i Hi. rewrite Hnth by exact Hi. reflexivity.
  - apply Forall_forall. intros y Hy.
    apply in_map_iff in Hy. destruct Hy as [i [<- Hi]].
    apply in_seq in Hi. rewrite Hx1. unfold g.
    apply Qplus_le_r. apply Qmult_le_compat_r; [|apply Qlt_le_weak, Hres].
    rewrite <- Zle_Qle. lia.
  - rewrite Hnth by lia. unfold g. symmetry. exact Hx1.
Qed.

(** C6, as stated, fails: with a step that does not divide [x1 - x0] the
    grid steps over the upper bound and never hits it:
    [create_param_range(0, 10, 3)] is [0, 3, 6, 9, 12]. *)
Lemma create_param_range_overshoots :
  0 < 3 /\
  exists l, create_param_range 0 10 3 = Ok l /\
            Forall2 Qeq l [0; 3; 6; 9; 12] /\
            ~ Forall (fun y => y <= 10) l /\
            ~ Exists (fun y => y == 10) l.
Proof.
  split; [reflexivity|].
  eexists. split; [reflexivity|]. split.
  - repeat constructor.
  - split.
    + intro H. cbn [map seq] in H.
      do 4 apply Forall_inv_tail in H. apply Forall_inv in H.
      revert H. vm_compute. intro H. apply H. reflexivity.
    + intro H. cbn [map seq] in H.
      repeat (apply Exists_cons in H; destruct H as [H|H];
              [revert H; vm_compute; discriminate|]).
      inversion H.
Qed.

(** C6 (amended): for integers [x0], [x1] and a positive integer step
    [res], where [np.arange] is exact, if [x1] lies [k] steps above [x0]
    the grid is [x0, x0 + res, ..., x0 + k * res = x1]: [k + 1] points,
    none above [x1], the last one [x1]; and
    [create_param_range(0, 1, 0.5)], whose values are exact in binary, is
    [0, 0.5, 1.0]. *)
Theorem create_param_range_inclusive (x0 x1 res : Z) (k : nat) :
  (0 < res)%Z -> x1 = (x0 + Z.of_nat k * res)%Z ->
  (exists l, create_param_range (inject_Z x0) (inject_Z x1) (inject_Z res)
             = Ok l /\
             length l = S k /\
             (forall i, (i <= k)%nat ->
                        nth i l 0 == inject_Z (x0 + Z.of_nat i * res)) /\
             Forall (fun y => y <= inject_Z x1) l /\
             nth k l 0 == inject_Z x1) /\
  (exists l, create_param_range 0 1 (1#2) = Ok l /\
             Forall2 Qeq l [0; 1#2; 1]).
Proof.
  intros Hres Hx1. split.
  - destruct (aligned_grid_exact (inject_Z x0) (inject_Z x1) (inject_Z res) k)
      as (l & Heq & Hlen & Hnth & Hle & Hlast).
    + change 0 with (inject_Z 0). rewrite <- Zlt_Qlt. exact Hres.
    + rewrite Hx1, inject_Z_plus, inject_Z_mult. reflexivity.
    + exists l. split; [exact Heq|]. split; [exact Hlen|].
      split; [|split; assumption].
      intros i Hi. rewrite (Hnth i Hi), inject_Z_plus, inject_Z_mult.
      reflexivity.
  - eexists. split; [reflexivity|]. repeat constructor.
Qed.

Lemma create_param_range_inclusive_witness :
  (exists l, create_param_range (inject_Z 50) (inject_Z 100) (inject_Z 10)
             = Ok l /\
             length l = 6%nat /\
             (forall i, (i <= 5)%nat ->
                        nth i l 0 == inject_Z (50 + Z.of_nat i * 10)) /\
             Forall (fun y => y <= inject_Z 100) l /\
             nth 5 l 0 == inject_Z 100) /\
  (exists l, create_param_range 0 1 (1#2) = Ok l /\
             Forall2 Qeq l [0; 1#2; 1]).
Proof.
  apply (create_param_range_inclusive 50 100 10 5); reflexivity.
Defined.

(** ** [discriminate] *)

Example discriminate_identical :
  np_eq (discriminate [Finite 1; Finite 1; Finite 1]
                      [Finite 1; Finite 1; Finite 1] 0 1) (Finite (1#2)).
Proof. vm_compute. reflexivity. Qed.

Example discriminate_separated :
  np_eq (discriminate [Finite 0; Finite 0; Finite 0]
                      [Finite 10; Finite 10; Finite 10] 0 1) (Finite 1).
Proof. vm_compute. reflexivity. Qed.

(** The swap of [discriminate] is decided by [a > b] alone. *)
Lemma labelled_scores_swap (d1 d2 : list np_float) (a b : Q) :
  ~ a == b ->
  labelled_scores d1 d2 a b = labelled_scores d2 d1 b a.
Proof.
  intro Hne. unfold labelled_scores, Qgtb.
  destruct (Qle_bool a b) eqn:Hab, (Qle_bool b a) eqn:Hba; cbn [negb];
    try reflexivity.
  - apply Qle_bool_iff in Hab, Hba.
    exfalso. apply Hne. apply Qle_antisym; assumption.
  - exfalso.
    destruct (Qlt_le_dec b a) as [Hlt|Hle].
    + apply Qlt_le_weak, Qle_bool_iff in Hlt. congruence.
    + apply Qle_bool_iff in Hle. congruence.
Qed.

Lemma discriminate_canonical_order (d1 d2 : list np_float) (a b : Q) :
  ~ a == b ->
  discriminate d1 d2 a b = discriminate d2 d1 b a.
Proof.
  intro Hne. unfold discriminate.
  rewrite (labelled_scores_swap d1 d2 a b Hne). reflexivity.
Qed.

(** C2, as stated, fails: for equal true values neither call swaps, the two
    calls score the collections in opposite orders, and the areas differ:
    [discriminate([0], [1], 5, 5)] is 1 and [discriminate([1], [0], 5, 5)]
    is 0. *)
Lemma discriminate_tie_depends_on_order :
  np_eq (discriminate [Finite 0] [Finite 1] 5 5) (Finite 1) /\
  np_eq (discriminate [Finite 1] [Finite 0] 5 5) (Finite 0) /\
  ~ np_eq (discriminate [Finite 0] [Finite 1] 5 5)
          (discriminate [Finite 1] [Finite 0] 5 5).
Proof. vm_compute. repeat split; discriminate. Qed.

(** C2 (amended): for different true values [a] and [b],
    [discriminate(d1, d2, a, b)] and [discriminate(d2, d1, b, a)] are the
    same value. *)
Theorem discriminate_swap_invariant (d1 d2 : list np_float) (a b : Q) :
  ~ a == b ->
  discriminate d1 d2 a b = discriminate d2 d1 b a.
Proof. apply discriminate_canonical_order. Qed.

Lemma discriminate_swap_invariant_witness :
  discriminate [Finite 1; Finite 1] [Finite 5; Finite 5] 1 2 =
  discriminate [Finite 5; Finite 5] [Finite 1; Finite 1] 2 1.
Proof.
  apply (discriminate_swap_invariant
           [Finite 1; Finite 1] [Finite 5; Finite 5] 1 2).
  vm_compute. discriminate.
Defined.

(** ** Sanitizing *)

Lemma replace_nonfinite_finite (d : list np_float) :
  Forall (fun v => isfinite v = true) (replace_nonfinite d).
Proof.
  induction d as [|v d IH]; cbn; constructor; [|exact IH].
  destruct v; reflexivity.
Qed.

Lemma keep_finite_id (d : list np_float) :
  Forall (fun v => isfinite v = true) d -> keep_finite d = d.
Proof.
  induction 1 as [|v d Hv _ IH]; cbn; [reflexivity|].
  rewrite Hv. f_equal. exact IH.
Qed.

Lemma sanitize_is_replace (d : list np_float) :
  sanitize d = replace_nonfinite d.
Proof. apply keep_finite_id, replace_nonfinite_finite. Qed.

Lemma replace_nonfinite_idem (d : list np_float) :
  replace_nonfinite (replace_nonfinite d) = replace_nonfinite d.
Proof.
  unfold replace_nonfinite. rewrite map_map. apply map_ext.
  intros [q| | |]; reflexivity.
Qed.

(** C3: sanitizing replaces every non-finite entry by 0 and then filters
    on finiteness; the filter removes nothing, lengths are kept, entry [i]
    is the original one or 0, and the score of a collection equals the
    score of the collection with its non-finite entries set to 0; so
    [discriminate([nan], [5], 0, 1)] is [discriminate([0], [5], 0, 1)]. *)
Theorem sanitize_two_stages :
  (forall d, sanitize d = keep_finite (replace_nonfinite d)) /\
  (forall d, keep_finite (replace_nonfinite d) = replace_nonfinite d) /\
  (forall d, length (sanitize d) = length d) /\
  (forall d i, nth i (sanitize d) (Finite 0) =
               if isfinite (nth i d (Finite 0)) then nth i d (Finite 0)
               else Finite 0) /\
  (forall d1 d2 a b,
      discriminate d1 d2 a b =
      discriminate (replace_nonfinite d1) (replace_nonfinite d2) a b) /\
  discriminate [NaN] [Finite 5] 0 1 = discriminate [Finite 0] [Finite 5] 0 1.
Proof.
  split; [reflexivity|].
  split; [exact sanitize_is_replace|].
  split.
  { intro d. rewrite sanitize_is_replace. apply length_map. }
  split.
  { intros d i. rewrite sanitize_is_replace. revert i.
    induction d as [|v d IH]; intros [|i]; cbn; try reflexivity.
    - destruct v; reflexivity.
    - apply IH. }
  split; [|reflexivity].
  intros d1 d2 a b. unfold discriminate, labelled_scores.
  destruct (Qgtb a b);
    rewrite !sanitize_is_replace, !replace_nonfinite_idem; reflexivity.
Qed.

(** ** The ROC curve of a single class *)

Lemma replace_nonfinite_values (d : list np_float) :
  replace_nonfinite d = map Finite (map sanitized_value d).
Proof.
  unfold replace_nonfinite. rewrite map_map. apply map_ext.
  intros [q| | |]; reflexivity.
Qed.

Lemma all_finite_map_Finite (qs : list Q) :
  all_finite (map Finite qs) = Ok qs.
Proof.
  induction qs as [|q qs IH]; cbn; [reflexivity|]. rewrite IH. reflexivity.
Qed.

Lemma insert_by_score_length (x : Q * bool) (l : list (Q * bool)) :
  length (insert_by_score x l) = S (length l).
Proof.
  induction l as [|y l IH]; cbn; [reflexivity|].
  destruct (Qle_bool (fst x) (fst y)); cbn; [reflexivity|].
  rewrite IH. reflexivity.
Qed.

Lemma stable_sort_by_score_length (l : list (Q * bool)) :
  length (stable_sort_by_score l) = length l.
Proof.
  unfold stable_sort_by_score.
  induction l as [|x l IH]; cbn [fold_right length]; [reflexivity|].
  rewrite insert_by_score_length, IH. reflexivity.
Qed.

Lemma insert_by_score_Forall (P : Q * bool -> Prop) x l :
  P x -> Forall P l -> Forall P (insert_by_score x l).
Proof.
  intros Hx Hl. induction Hl as [|y l Hy Hl IH]; cbn.
  - constructor; [exact Hx|constructor].
  - destruct (Qle_bool (fst x) (fst y)).
    + constructor; [exact Hx|]. constructor; assumption.
    + constructor; assumption.
Qed.

Lemma stable_sort_by_score_Forall (P : Q * bool -> Prop) l :
  Forall P l -> Forall P (stable_sort_by_score l).
Proof.
  unfold stable_sort_by_score.
  induction 1 as [|x l Hx Hl IH]; cbn [fold_right]; [constructor|].
  apply insert_by_score_Forall; assumption.
Qed.

Lemma combine_repeat_Forall (qs : list Q) (b : bool) (n : nat) :
  Forall (fun p : Q * bool => snd p = b) (combine qs (repeat b n)).
Proof.
  revert n. induction qs as [|q qs IH]; intros [|n]; cbn; constructor;
    [reflexivity|apply IH].
Qed.

Lemma cumsum_from_length (acc : Q) (l : list Q) :
  length (cumsum_from acc l) = length l.
Proof.
  revert acc. induction l as [|x l IH]; intro acc; cbn; [reflexivity|].
  rewrite IH. reflexivity.
Qed.

Lemma cumsum_from_const (c : Q) (l : list Q) :
  Forall (fun x => x == c) l ->
  forall acc i, (i < length l)%nat ->
    nth i (cumsum_from acc l) 0 == acc + nat_to_Q (S i) * c.
Proof.
  induction 1 as [|x l Hx Hl IH]; intros acc i Hi; cbn in Hi; [lia|].
  destruct i as [|i]; cbn [cumsum_from nth].
  - rewrite Hx. unfold nat_to_Q. cbn. ring.
  - rewrite IH by lia. rewrite Hx. unfold nat_to_Q.
    rewrite (Nat2Z.inj_succ (S i)). unfold Z.succ.
    rewrite inject_Z_plus. ring.
Qed.

Lemma np_diff_length (a : list Q) : length (np_diff a) = (length a - 1)%nat.
Proof.
  induction a as [|x [|y a] IH]; cbn in *; try reflexivity.
  rewrite IH. lia.
Qed.

Lemma distinct_value_indices_bound (s : list Q) :
  Forall (fun i => (i < length s - 1)%nat) (distinct_value_indices s).
Proof.
  unfold distinct_value_indices. apply Forall_forall. intros i Hi.
  apply filter_In in Hi. destruct Hi as [Hi _].
  apply in_seq in Hi. rewrite np_diff_length in Hi. lia.
Qed.

Lemma filter_seq_sorted (f : nat -> bool) (start len : nat) :
  StronglySorted lt (filter f (seq start len)).
Proof.
  revert start. induction len as [|len IH]; intro start; cbn; [constructor|].
  destruct (f start); [|apply IH].
  constructor; [apply IH|].
  apply Forall_forall. intros j Hj. apply filter_In in Hj.
  destruct Hj as [Hj _]. apply in_seq in Hj. lia.
Qed.

Lemma StronglySorted_snoc (l : list nat) (m : nat) :
  StronglySorted lt l -> Forall (fun i => (i < m)%nat) l ->
  StronglySorted lt (l ++ [m]).
Proof.
  induction 1 as [|x l Hl IH Hx]; intro Hb; cbn.
  - constructor; constructor.
  - inversion Hb as [|? ? Hxm Hb']; subst.
    constructor; [apply IH; exact Hb'|].
    apply Forall_app. split; [exact Hx|]. constructor; [exact Hxm|constructor].
Qed.

(** The threshold positions are increasing and inside the array. *)
Lemma threshold_idxs_sorted (s : list Q) :
  s <> [] ->
  StronglySorted lt (distinct_value_indices s ++ [(length s - 1)%nat]) /\
  Forall (fun i => (i < length s)%nat)
         (distinct_value_indices s ++ [(length s - 1)%nat]).
Proof.
  intro Hs. assert (0 < length s)%nat by (destruct s; [congruence|cbn; lia]).
  split.
  - apply StronglySorted_snoc.
    + apply filter_seq_sorted.
    + apply distinct_value_indices_bound.
  - apply Forall_app. split.
    + eapply Forall_impl; [|apply distinct_value_indices_bound].
      cbn. intros; lia.
    + constructor; [lia|constructor].
Qed.

Lemma nat_to_Q_le (i j : nat) : (i <= j)%nat -> nat_to_Q i <= nat_to_Q j.
Proof. intro H. unfold nat_to_Q. rewrite <- Zle_Qle. lia. Qed.

Lemma nat_to_Q_nonneg (i : nat) : 0 <= nat_to_Q i.
Proof. apply (nat_to_Q_le 0 i). lia. Qed.

Lemma map_sorted_counts (f : nat -> Q) (idxs : list nat) :
  StronglySorted lt idxs ->
  Forall (fun i => f i == 1 + nat_to_Q i) idxs ->
  StronglySorted Qle (map f idxs) /\ Forall (fun c => 0 < c) (map f idxs).
Proof.
  induction 1 as [|i idxs Hs IH Hi]; intro Hf; cbn.
  - split; constructor.
  - inversion Hf as [|? ? Hfi Hf']; subst.
    destruct (IH Hf') as [IHs IHp].
    assert (Hpos : 0 < f i).
    { rewrite Hfi. apply Qlt_le_trans with (y := 1); [reflexivity|].
      rewrite <- (Qplus_0_r 1) at 1. apply Qplus_le_r, nat_to_Q_nonneg. }
    split; [|constructor; assumption].
    constructor; [exact IHs|].
    apply Forall_forall. intros c Hc. apply in_map_iff in Hc.
    destruct Hc as [j [<- Hj]].
    rewrite Forall_forall in Hi, Hf'.
    rewrite Hfi, (Hf' j Hj). apply Qplus_le_r, nat_to_Q_le.
    specialize (Hi j Hj). lia.
Qed.

(** [_binary_clf_curve] when every label is the same: with positives only
    no false positive is ever counted; with negatives only no true positive
    is, and the false positive counts increase. *)
Lemma binary_clf_curve_single_class (qs : list Q) (lbl : Z) :
  qs <> [] ->
  exists fps tps,
    binary_clf_curve (repeat lbl (length qs)) (map Finite qs) 1 = Ok (fps, tps) /\
    length fps = length tps /\ fps <> [] /\
    ((1 =? lbl)%Z = true -> Forall (fun c => c == 0) fps) /\
    ((1 =? lbl)%Z = false ->
       Forall (fun c => c == 0) tps /\
       StronglySorted Qle fps /\ Forall (fun c => 0 < c) fps).
Proof.
  intro Hne. unfold binary_clf_curve.
  rewrite repeat_length, length_map, Nat.eqb_refl. cbn [negb].
  rewrite all_finite_map_Finite. cbn [bind].
  rewrite map_repeat.
  remember (1 =? lbl)%Z as b eqn:Hb.
  remember (rev (stable_sort_by_score (combine qs (repeat b (length qs)))))
    as sorted eqn:Hsorted.
  assert (Hlen : length sorted = length qs).
  { subst sorted. rewrite length_rev, stable_sort_by_score_length,
      length_combine, repeat_length. apply Nat.min_id. }
  assert (Hlbl : Forall (fun p : Q * bool => snd p = b) sorted).
  { subst sorted. apply Forall_rev, stable_sort_by_score_Forall,
      combine_repeat_Forall. }
  clear Hsorted.
  destruct sorted as [|p rest].
  { destruct qs; [congruence|discriminate]. }
  set (s := p :: rest) in *.
  assert (Hs : map fst s <> []) by (subst s; discriminate).
  destruct (threshold_idxs_sorted (map fst s) Hs) as [Hsorted Hbound].
  rewrite !length_map in *.
  set (idxs := distinct_value_indices (map fst s) ++ [(length s - 1)%nat]) in *.
  assert (Hcsum : forall i, (i < length s)%nat ->
            nth i (cumsum (map bool_to_Q (map snd s))) 0
            == nat_to_Q (S i) * bool_to_Q b).
  { intros i Hi. unfold cumsum.
    rewrite (cumsum_from_const (bool_to_Q b)).
    - ring.
    - rewrite map_map. apply Forall_map.
      eapply Forall_impl; [|exact Hlbl]. cbn. intros a ->. reflexivity.
    - rewrite !length_map. exact Hi. }
  eexists. eexists. split; [reflexivity|].
  split; [rewrite !length_map; reflexivity|].
  split; [subst idxs; destruct (distinct_value_indices (map fst s)); discriminate|].
  split.
  - intros ->. apply Forall_map. eapply Forall_impl; [|exact Hbound].
    cbn beta. intros i Hi. rewrite (Hcsum i Hi). unfold nat_to_Q, bool_to_Q.
    rewrite Nat2Z.inj_succ. unfold Z.succ. rewrite inject_Z_plus. ring.
  - intros ->.
    assert (Hzero : forall i, (i < length s)%nat ->
              nth i (cumsum (map bool_to_Q (map snd s))) 0 == 0).
    { intros i Hi. rewrite (Hcsum i Hi). unfold bool_to_Q. ring. }
    split.
    + apply Forall_map. eapply Forall_impl; [|exact Hbound].
      cbn beta. intros i Hi. exact (Hzero i Hi).
    + apply map_sorted_counts; [exact Hsorted|].
      eapply Forall_impl; [|exact Hbound].
      cbn beta. intros i Hi. rewrite (Hzero i Hi). ring.
Qed.

(** Selecting by a mask keeps what holds of every entry, the order, and
    equal lengths. *)
Lemma select_mask_Forall {A : Type} (P : A -> Prop) (m : list bool) (l : list A) :
  Forall P l -> Forall P (select_mask m l).
Proof.
  intro H. revert m. induction H as [|x l Hx Hl IH]; intros [|[|] m]; cbn;
    try constructor; auto.
Qed.

Lemma select_mask_sorted {A : Type} (R : A -> A -> Prop) (m : list bool) (l : list A) :
  StronglySorted R l -> StronglySorted R (select_mask m l).
Proof.
  intro H. revert m. induction H as [|x l Hl IH Hx]; intros [|[|] m]; cbn;
    try constructor; auto.
  apply select_mask_Forall. exact Hx.
Qed.

Lemma select_mask_length {A B : Type} (m : list bool) (l1 : list A) (l2 : list B) :
  length l1 = length l2 ->
  length (select_mask m l1) = length (select_mask m l2).
Proof.
  revert l1 l2. induction m as [|b m IH]; intros [|x l1] [|y l2] H; cbn in *;
    try reflexivity; try discriminate.
  injection H as H. destruct b; cbn; rewrite (IH l1 l2 H); reflexivity.
Qed.

Lemma select_mask_all {A : Type} (l : list A) :
  select_mask (repeat true (length l)) l = l.
Proof. induction l as [|x l IH]; cbn; [reflexivity|]. rewrite IH. reflexivity. Qed.

(** [roc_curve] keeps a sub-curve of the counts, in order, and prepends the
    origin. *)
Lemma roc_curve_shape (y_true : list Z) (y_score : list np_float)
    (fps tps : list Q) :
  binary_clf_curve y_true y_score 1 = Ok (fps, tps) ->
  length fps = length tps ->
  fps <> [] ->
  exists m,
    roc_curve y_true y_score 1 =
      Ok (rates (0 :: select_mask m fps), rates (0 :: select_mask m tps)) /\
    select_mask m fps <> [].
Proof.
  intros Hcurve Hlen Hne. unfold roc_curve. rewrite Hcurve. cbn [bind].
  destruct (2 <? length fps)%nat.
  - exists (optimal_mask fps tps). split; [reflexivity|].
    destruct fps; [congruence|]. discriminate.
  - exists (repeat true (length fps)). split.
    + rewrite select_mask_all, Hlen, select_mask_all. reflexivity.
    + rewrite select_mask_all. exact Hne.
Qed.

Lemma last_Forall {A : Type} (P : A -> Prop) (l : list A) (d : A) :
  Forall P l -> P d -> P (last l d).
Proof.
  induction 1 as [|x l Hx Hl IH]; intro Hd; [exact Hd|].
  destruct l as [|y l]; [exact Hx|]. apply IH. exact Hd.
Qed.

Lemma last_Forall_nonempty {A : Type} (P : A -> Prop) (l : list A) (d : A) :
  l <> [] -> Forall P l -> P (last l d).
Proof.
  intros Hne H. induction H as [|x l Hx Hl IH]; [congruence|].
  destruct l as [|y l]; [exact Hx|]. apply IH. discriminate.
Qed.

Lemma rates_length (counts : list Q) : length (rates counts) = length counts.
Proof.
  unfold rates. destruct (Qle_bool (last counts 0) 0).
  - apply repeat_length.
  - apply length_map.
Qed.

(** An absent class: every rate is NaN. *)
Lemma rates_absent (counts : list Q) :
  Forall (fun c => c == 0) counts ->
  rates (0 :: counts) = repeat NaN (S (length counts)).
Proof.
  intro H. unfold rates.
  assert (Hlast : last (0 :: counts) 0 == 0).
  { apply (last_Forall (fun c => c == 0)); [|reflexivity].
    constructor; [reflexivity|exact H]. }
  destruct (Qle_bool (last (0 :: counts) 0) 0) eqn:E; [reflexivity|].
  assert (Hle : last (0 :: counts) 0 <= 0) by (rewrite Hlast; apply Qle_refl).
  apply Qle_bool_iff in Hle. congruence.
Qed.

(** A present class: the rates are the counts over the positive total. *)
Lemma rates_present (counts : list Q) :
  counts <> [] -> Forall (fun c => 0 < c) counts ->
  exists total, 0 < total /\
    rates (0 :: counts) = map Finite (map (fun c => c / total) (0 :: counts)).
Proof.
  intros Hne H. exists (last (0 :: counts) 0).
  assert (Hpos : 0 < last (0 :: counts) 0).
  { destruct counts as [|c counts]; [congruence|].
    change (last (0 :: c :: counts) 0) with (last (c :: counts) 0).
    apply (last_Forall_nonempty (fun c => 0 < c)); [discriminate|exact H]. }
  split; [exact Hpos|].
  unfold rates.
  destruct (Qle_bool (last (0 :: counts) 0) 0) eqn:E.
  - apply Qle_bool_iff in E. exfalso. exact (Qlt_not_le _ _ Hpos E).
  - rewrite map_map. reflexivity.
Qed.

(** ** The area under a curve with NaN coordinates *)

Lemma np_sum_float_nan (l : list np_float) :
  l <> [] -> Forall (eq NaN) l -> np_sum_float l = NaN.
Proof.
  intros Hne H. unfold np_sum_float.
  assert (Habs : forall l', Forall (eq NaN) l' -> fold_left np_add l' NaN = NaN).
  { induction 1 as [|x l' <- _ IH]; [reflexivity|exact IH]. }
  destruct H as [|x l <- Hl]; [congruence|].
  cbn [fold_left]. apply Habs. exact Hl.
Qed.

Lemma np_mul_nan_r (x : np_float) : np_mul x NaN = NaN.
Proof. destruct x; reflexivity. Qed.

Lemma trapz_terms_length (y x : list np_float) :
  length x = length y -> length (trapz_terms y x) = (length x - 1)%nat.
Proof.
  revert x. induction y as [|y0 y IH]; intros [|x0 x] H; cbn in *;
    try reflexivity; try discriminate.
  injection H as H. destruct y as [|y1 y], x as [|x1 x]; try discriminate;
    [reflexivity|].
  cbn [length]. rewrite (IH (x1 :: x) H). cbn. lia.
Qed.

Lemma trapz_terms_nan_x (y x : list np_float) :
  Forall (eq NaN) x -> Forall (eq NaN) (trapz_terms y x).
Proof.
  intro H. revert y. induction H as [|x0 x <- Hx IH]; intros [|y0 y];
    cbn; try constructor.
  destruct y as [|y1 y], x as [|x1 x]; try constructor.
  - inversion Hx; subst. reflexivity.
  - apply IH.
Qed.

Lemma trapz_terms_nan_y (y x : list np_float) :
  Forall (eq NaN) y -> Forall (eq NaN) (trapz_terms y x).
Proof.
  intro H. revert x. induction H as [|y0 y <- Hy IH]; intros [|x0 x];
    cbn; try constructor.
  destruct y as [|y1 y], x as [|x1 x]; try constructor.
  - inversion Hy; subst. cbn [np_add]. rewrite np_mul_nan_r. reflexivity.
  - apply IH.
Qed.

Lemma trapz_nan (y x : list np_float) :
  length x = length y -> (2 <= length x)%nat ->
  Forall (eq NaN) x \/ Forall (eq NaN) y ->
  trapz y x = NaN.
Proof.
  intros Hlen Hk H. unfold trapz. apply np_sum_float_nan.
  - intro E. apply (f_equal (@length _)) in E.
    rewrite trapz_terms_length in E by exact Hlen. cbn in E. lia.
  - destruct H; [apply trapz_terms_nan_x|apply trapz_terms_nan_y]; assumption.
Qed.

Lemma np_diff_float_nan (x : list np_float) :
  Forall (eq NaN) x -> Forall (eq NaN) (np_diff_float x).
Proof.
  induction 1 as [|x0 x <- Hx IH]; cbn; [constructor|].
  destruct Hx as [|x1 x <- Hx]; constructor; [reflexivity|exact IH].
Qed.

Lemma np_diff_float_Finite (xs : list Q) :
  np_diff_float (map Finite xs) = map Finite (np_diff xs).
Proof.
  induction xs as [|x [|y xs] IH]; cbn in *; try reflexivity.
  rewrite IH. reflexivity.
Qed.

Lemma np_diff_sorted (xs : list Q) :
  StronglySorted Qle xs -> Forall (fun d => 0 <= d) (np_diff xs).
Proof.
  induction 1 as [|x xs Hs IH Hx]; cbn; [constructor|].
  destruct xs as [|y xs]; constructor; [|exact IH].
  inversion Hx; subst. unfold Qminus. rewrite <- Qle_minus_iff. assumption.
Qed.

(** [auc] of a curve whose abscissas are all NaN. *)
Lemma auc_nan_x (x y : list np_float) :
  length x = length y -> (2 <= length x)%nat -> Forall (eq NaN) x ->
  auc x y = Ok NaN.
Proof.
  intros Hlen Hk Hx. unfold auc.
  rewrite Hlen, Nat.eqb_refl. cbn [negb]. rewrite <- Hlen.
  destruct (length x <? 2)%nat eqn:E; [apply Nat.ltb_lt in E; lia|].
  assert (Hex : existsb (fun d => np_ltb d (Finite 0)) (np_diff_float x) = false).
  { apply np_diff_float_nan in Hx.
    induction Hx as [|d l <- _ IH]; [reflexivity|exact IH]. }
  rewrite Hex. rewrite trapz_nan by auto. reflexivity.
Qed.

(** [auc] of a curve with increasing abscissas and NaN ordinates. *)
Lemma auc_nan_y (xs : list Q) (y : list np_float) :
  length xs = length y -> (2 <= length xs)%nat ->
  StronglySorted Qle xs -> Forall (eq NaN) y ->
  auc (map Finite xs) y = Ok NaN.
Proof.
  intros Hlen Hk Hs Hy. unfold auc.
  rewrite length_map, Hlen, Nat.eqb_refl. cbn [negb]. rewrite <- Hlen.
  destruct (length xs <? 2)%nat eqn:E; [apply Nat.ltb_lt in E; lia|].
  assert (Hex : existsb (fun d => np_ltb d (Finite 0))
                        (np_diff_float (map Finite xs)) = false).
  { rewrite np_diff_float_Finite. apply np_diff_sorted in Hs.
    induction Hs as [|d l Hd _ IH]; [reflexivity|].
    cbn. apply Qle_bool_iff in Hd. rewrite Hd. exact IH. }
  rewrite Hex. rewrite trapz_nan; [reflexivity| | |right; exact Hy].
  - rewrite length_map. exact Hlen.
  - rewrite length_map. exact Hk.
Qed.

Lemma sorted_map_div (total : Q) (xs : list Q) :
  0 < total -> StronglySorted Qle xs ->
  StronglySorted Qle (map (fun c => c / total) xs).
Proof.
  intros Hpos. induction 1 as [|x xs Hs IH Hx]; cbn; constructor; [exact IH|].
  apply Forall_map. eapply Forall_impl; [|exact Hx].
  cbn beta. intros y Hxy. unfold Qdiv.
  apply Qmult_le_compat_r; [exact Hxy|].
  apply Qlt_le_weak, Qinv_lt_0_compat, Hpos.
Qed.

(** With a single class among the labels the ROC computation does not
    raise: the rates of the absent class are NaN and so is the area. *)
Lemma roc_auc_single_class (qs : list Q) (lbl : Z) :
  qs <> [] ->
  roc_auc (repeat lbl (length qs)) (map Finite qs) = Ok NaN.
Proof.
  intro Hne.
  destruct (binary_clf_curve_single_class qs lbl Hne)
    as (fps & tps & Hcurve & Hlen & Hfps & Hpos & Hneg).
  destruct (roc_curve_shape _ _ fps tps Hcurve Hlen Hfps) as (m & Hroc & Hsel).
  unfold roc_auc. rewrite Hroc. cbn [bind].
  pose proof (select_mask_length m fps tps Hlen) as Hlen'.
  destruct (1 =? lbl)%Z.
  - specialize (Hpos eq_refl).
    rewrite (rates_absent (select_mask m fps))
      by (apply select_mask_Forall; exact Hpos).
    apply auc_nan_x.
    + rewrite repeat_length, rates_length. cbn [length]. congruence.
    + rewrite repeat_length. destruct (select_mask m fps); [congruence|cbn; lia].
    + clear. induction (S (length (select_mask m fps))); cbn; constructor;
        [reflexivity|assumption].
  - destruct (Hneg eq_refl) as (Htps & Hsorted & Hfpos).
    rewrite (rates_absent (select_mask m tps))
      by (apply select_mask_Forall; exact Htps).
    destruct (rates_present (select_mask m fps) Hsel) as (total & Htotal & ->).
    { apply select_mask_Forall. exact Hfpos. }
    apply auc_nan_y.
    + rewrite length_map, repeat_length. cbn [length]. congruence.
    + rewrite length_map. destruct (select_mask m fps); [congruence|cbn; lia].
    + apply sorted_map_div; [exact Htotal|].
      constructor; [apply select_mask_sorted; exact Hsorted|].
      apply select_mask_Forall. eapply Forall_impl; [|exact Hfpos].
      cbn beta. intros c Hc. apply Qlt_le_weak, Hc.
    + clear. induction (S (length (select_mask m tps))); cbn; constructor;
        [reflexivity|assumption].
Qed.

Lemma discriminate_one_empty (d : list np_float) (lbl : Z) :
  d <> [] ->
  roc_auc (repeat lbl (length (sanitize d))) (sanitize d) = Ok NaN.
Proof.
  intro Hne. rewrite sanitize_is_replace, replace_nonfinite_values.
  rewrite length_map.
  apply roc_auc_single_class.
  destruct d; [congruence|discriminate].
Qed.

(** C4, as stated, fails: with one collection empty a class is absent, yet
    [roc_curve] and [auc] do not raise; the rates of the absent class are
    NaN and [discriminate([], [5], 0, 1)] is NaN, not 0. *)
Lemma discriminate_absent_class_is_nan :
  roc_auc [1%Z] [Finite 5] = Ok NaN /\
  discriminate [] [Finite 5] 0 1 = NaN /\
  ~ np_eq (discriminate [] [Finite 5] 0 1) (Finite 0).
Proof. vm_compute. repeat split. intros []. Qed.

(** C4 (amended): [discriminate] returns a value on all collections: the
    area when [roc_curve] and [auc] return, and 0 when either raises, as
    they do when both collections are empty; when exactly one collection
    is empty they do not raise and the value is NaN. *)
Theorem discriminate_failure_default :
  (forall d1 d2 a b,
      discriminate d1 d2 a b =
      match roc_auc (fst (labelled_scores d1 d2 a b))
                    (snd (labelled_scores d1 d2 a b)) with
      | Ok area => area
      | Raise _ => Finite 0
      end) /\
  (forall a b, roc_auc (fst (labelled_scores [] [] a b))
                       (snd (labelled_scores [] [] a b)) = Raise IndexError /\
               discriminate [] [] a b = Finite 0) /\
  (forall v d a b, discriminate [] (v :: d) a b = NaN) /\
  (forall v d a b, discriminate (v :: d) [] a b = NaN).
Proof.
  split; [|split; [|split]].
  - intros d1 d2 a b. unfold discriminate.
    destruct (labelled_scores d1 d2 a b) as [true_value score]. reflexivity.
  - intros a b. unfold discriminate, labelled_scores.
    destruct (Qgtb a b); split; reflexivity.
  - intros v d a b. unfold discriminate, labelled_scores.
    destruct (Qgtb a b).
    + change (sanitize []) with (@nil np_float).
      cbn [length repeat]. rewrite !app_nil_r.
      rewrite discriminate_one_empty by discriminate. reflexivity.
    + change (sanitize []) with (@nil np_float).
      cbn [length repeat app].
      rewrite discriminate_one_empty by discriminate. reflexivity.
  - intros v d a b. unfold discriminate, labelled_scores.
    destruct (Qgtb a b).
    + change (sanitize []) with (@nil np_float).
      cbn [length repeat app].
      rewrite discriminate_one_empty by discriminate. reflexivity.
    + change (sanitize []) with (@nil np_float).
      cbn [length repeat]. rewrite !app_nil_r.
      rewrite discriminate_one_empty by discriminate. reflexivity.
Qed.

(** ** [discrimination_combinations] *)

Lemma dict_get_In {V : Type} (d : dict V) (k : Q) :
  In k (dict_keys d) -> exists v, dict_get d k = Ok v.
Proof.
  induction d as [|[k' v'] d IH]; cbn; [contradiction|].
  intros [->|Hin].
  - exists v'. rewrite Qeq_bool_refl. reflexivity.
  - destruct (Qeq_bool k' k); [exists v'; reflexivity|apply IH, Hin].
Qed.

(** Under the [dict] invariant the lookup of the [i]-th key is the [i]-th
    value. *)
Lemma dict_get_nth {V : Type} (d : dict V) (dv : V) (i : nat) :
  distinct_keys d -> (i < length d)%nat ->
  dict_get d (nth i (dict_keys d) 0) = Ok (nth i (dict_values d) dv).
Proof.
  unfold distinct_keys. revert i.
  induction d as [|[k v] d IH]; intros i Hd Hi; cbn in Hi; [lia|].
  cbn in Hd. inversion Hd as [|? ? Hk Hd']; subst.
  destruct i as [|i]; cbn.
  - rewrite Qeq_bool_refl. reflexivity.
  - fold (dict_keys d) (dict_values d) in *.
    destruct (Qeq_bool k (nth i (dict_keys d) 0)) eqn:E.
    + exfalso. apply Hk. apply Qeq_bool_iff in E.
      apply InA_alt. exists (nth i (dict_keys d) 0). split; [exact E|].
      apply nth_In. unfold dict_keys. rewrite length_map. lia.
    + apply IH; [exact Hd'|lia].
Qed.

Lemma combine_app_same {A B : Type} (l1 l2 : list A) (r1 r2 : list B) :
  length l1 = length r1 ->
  combine (l1 ++ l2) (r1 ++ r2) = combine l1 r1 ++ combine l2 r2.
Proof.
  revert r1. induction l1 as [|a l1 IH]; intros [|b r1] H; cbn in *;
    try discriminate; [reflexivity|].
  rewrite IH by congruence. reflexivity.
Qed.

Lemma combine_constant_row {A B : Type} (x : list A) (b : B) :
  combine x (map (fun _ => b) x) = map (fun a => (a, b)) x.
Proof. induction x as [|a x IH]; cbn; [reflexivity|]. rewrite IH. reflexivity. Qed.

(** The pairs the comprehension runs over: row [i] pairs every level with
    the [i]-th level. *)
Lemma combine_ravel_meshgrid (x y : list Q) :
  combine (ravel (fst (meshgrid x y))) (ravel (snd (meshgrid x y))) =
  concat (map (fun yi => map (fun xj => (xj, yi)) x) y).
Proof.
  unfold meshgrid, ravel. cbn [fst snd].
  induction y as [|yi y IH]; cbn; [reflexivity|].
  rewrite combine_app_same by (rewrite length_map; reflexivity).
  rewrite combine_constant_row, IH. reflexivity.
Qed.

Lemma map_result_ok {A B : Type} (f : A -> result B) (g : A -> B) (l : list A) :
  (forall a, In a l -> f a = Ok (g a)) ->
  map_result f l = Ok (map g l).
Proof.
  induction l as [|a l IH]; intro H; cbn; [reflexivity|].
  rewrite (H a) by (left; reflexivity). cbn [bind].
  rewrite IH by (intros; apply H; right; assumption). reflexivity.
Qed.

Lemma concat_length_rows {A : Type} (rows : list (list A)) (cols : nat) :
  Forall (fun r => length r = cols) rows ->
  length (concat rows) = (length rows * cols)%nat.
Proof.
  induction 1 as [|r rows Hr _ IH]; cbn; [reflexivity|].
  rewrite length_app, Hr, IH. reflexivity.
Qed.

Lemma rows_of_concat {A : Type} (rows : list (list A)) (cols : nat) :
  Forall (fun r => length r = cols) rows ->
  rows_of (length rows) cols (concat rows) = rows.
Proof.
  induction 1 as [|r rows Hr _ IH]; cbn; [reflexivity|].
  subst cols.
  rewrite firstn_app, skipn_app, firstn_all, skipn_all, Nat.sub_diag.
  cbn [firstn app]. rewrite app_nil_r, skipn_O, IH. reflexivity.
Qed.

(** The grid [discrimination_combinations] returns, in closed form. *)
Lemma discrimination_combinations_eq (iv : dict (list np_float)) :
  discrimination_combinations iv =
  Ok (map (fun _ => dict_keys iv) (dict_keys iv),
      map (fun yi => map (fun _ => yi) (dict_keys iv)) (dict_keys iv),
      map (fun yi => map (fun xj => level_score iv (xj, yi)) (dict_keys iv))
          (dict_keys iv)).
Proof.
  unfold discrimination_combinations.
  pose proof (combine_ravel_meshgrid (dict_keys iv) (dict_keys iv)) as Hpairs.
  unfold meshgrid in *. cbn [fst snd] in Hpairs. rewrite Hpairs.
  rewrite (map_result_ok _ (level_score iv)).
  - cbn [bind]. rewrite concat_map, map_map.
    set (rows := map (fun yi => map (level_score iv)
                                    (map (fun xj => (xj, yi)) (dict_keys iv)))
                     (dict_keys iv)).
    assert (Hrows : Forall (fun r => length r = length (dict_keys iv)) rows).
    { subst rows. apply Forall_map, Forall_forall. intros yi _.
      rewrite !length_map. reflexivity. }
    assert (Hn : length rows = length (dict_keys iv))
      by (subst rows; apply length_map).
    unfold reshape.
    rewrite (concat_length_rows rows _ Hrows), Hn, Nat.eqb_refl.
    cbn [bind]. rewrite <- Hn at 1. rewrite (rows_of_concat rows _ Hrows).
    subst rows. do 2 f_equal. apply map_ext. intro yi. apply map_map.
  - intros [xj yi] Hin. apply in_concat in Hin.
    destruct Hin as (row & Hrow & Hin).
    apply in_map_iff in Hrow. destruct Hrow as (yi' & <- & Hyi).
    apply in_map_iff in Hin. destruct Hin as (xj' & [= <- <-] & Hxj).
    destruct (dict_get_In iv xj' Hxj) as [vx Hx].
    destruct (dict_get_In iv yi' Hyi) as [vy Hy].
    unfold level_score. cbn [fst snd]. rewrite Hx, Hy. reflexivity.
Qed.

Lemma nth_map_lt {A B : Type} (f : A -> B) (l : list A) (i : nat) (d : A) (d' : B) :
  (i < length l)%nat -> nth i (map f l) d' = f (nth i l d).
Proof.
  intro Hi. rewrite (nth_indep _ d' (f d)) by (rewrite length_map; exact Hi).
  apply map_nth.
Qed.

Lemma distinct_keys_nth {V : Type} (d : dict V) (i j : nat) :
  distinct_keys d -> (i < length d)%nat -> (j < length d)%nat -> i <> j ->
  ~ nth i (dict_keys d) 0 == nth j (dict_keys d) 0.
Proof.
  unfold distinct_keys.
  assert (Hlen : length (dict_keys d) = length d) by apply length_map.
  rewrite <- Hlen. clear Hlen. generalize (dict_keys d) as ks. clear d.
  intros ks Hd. revert i j.
  induction Hd as [|k ks Hk Hd IH]; intros i j Hi Hj Hij; cbn in Hi, Hj; [lia|].
  destruct i as [|i], j as [|j]; cbn; try congruence.
  - intro E. apply Hk. apply InA_alt. exists (nth j ks 0).
    split; [exact E|apply nth_In; lia].
  - intro E. apply Hk. apply InA_alt. exists (nth i ks 0).
    split; [symmetry; exact E|apply nth_In; lia].
  - apply IH; lia.
Qed.

(** C7: for a mapping with [n] distinct levels the three grids are [n] by
    [n]; cell [(i, j)] of the level grids holds the [j]-th and the [i]-th
    level, cell [(i, j)] of the score grid is [discriminate] on that pair
    of levels and their measures (self-pairs included), and the score grid
    is symmetric off the diagonal. *)
Theorem discrimination_combinations_grid (iv : dict (list np_float)) :
  distinct_keys iv ->
  exists xx yy zz,
    discrimination_combinations iv = Ok (xx, yy, zz) /\
    (length xx = length iv /\ length yy = length iv /\ length zz = length iv) /\
    (forall i, (i < length iv)%nat ->
       length (nth i xx []) = length iv /\
       length (nth i yy []) = length iv /\
       length (nth i zz []) = length iv) /\
    (forall i j, (i < length iv)%nat -> (j < length iv)%nat ->
       nth j (nth i xx []) 0 = nth j (dict_keys iv) 0 /\
       nth j (nth i yy []) 0 = nth i (dict_keys iv) 0 /\
       nth j (nth i zz []) NaN =
         discriminate (nth j (dict_values iv) []) (nth i (dict_values iv) [])
                      (nth j (dict_keys iv) 0) (nth i (dict_keys iv) 0)) /\
    (forall i j, (i < length iv)%nat -> (j < length iv)%nat -> i <> j ->
       nth j (nth i zz []) NaN = nth i (nth j zz []) NaN).
Proof.
  intro Hd.
  assert (Hn : length (dict_keys iv) = length iv) by apply length_map.
  assert (Hcell : forall i j, (i < length iv)%nat -> (j < length iv)%nat ->
            nth j (nth i (map (fun yi => map (fun xj => level_score iv (xj, yi))
                                             (dict_keys iv)) (dict_keys iv)) [])
                NaN =
            discriminate (nth j (dict_values iv) []) (nth i (dict_values iv) [])
                         (nth j (dict_keys iv) 0) (nth i (dict_keys iv) 0)).
  { intros i j Hi Hj.
    rewrite (nth_map_lt _ _ i 0) by lia.
    rewrite (nth_map_lt _ _ j 0) by lia.
    unfold level_score. cbn [fst snd].
    rewrite (dict_get_nth iv [] j Hd Hj), (dict_get_nth iv [] i Hd Hi).
    reflexivity. }
  eexists. eexists. eexists.
  split; [apply discrimination_combinations_eq|].
  split; [rewrite !length_map; auto|].
  split; [|split].
  - intros i Hi.
    rewrite (nth_map_lt _ _ i 0), (nth_map_lt _ _ i 0), (nth_map_lt _ _ i 0)
      by lia.
    rewrite !length_map. auto.
  - intros i j Hi Hj. split; [|split].
    + rewrite (nth_map_lt _ _ i 0) by lia. reflexivity.
    + rewrite (nth_map_lt _ _ i 0) by lia.
      rewrite (nth_map_lt _ _ j 0) by lia. reflexivity.
    + apply Hcell; assumption.
  - intros i j Hi Hj Hij. rewrite !Hcell by assumption.
    apply discriminate_canonical_order.
    apply distinct_keys_nth; auto.
Qed.

Lemma discrimination_combinations_grid_witness :
  exists xx yy zz,
    discrimination_combinations two_level_measures = Ok (xx, yy, zz) /\
    length zz = 2%nat /\
    nth 1 (nth 0 zz []) NaN = nth 0 (nth 1 zz []) NaN.
Proof.
  assert (Hd : distinct_keys two_level_measures).
  { unfold distinct_keys, two_level_measures. cbn.
    constructor.
    - intro H. inversion H as [? ? E|? ? E]; subst; [discriminate E|inversion E].
    - constructor; [intro H; inversion H|constructor]. }
  destruct (discrimination_combinations_grid two_level_measures Hd)
    as (xx & yy & zz & Heq & (_ & _ & Hlen) & _ & _ & Hsym).
  exists xx, yy, zz. split; [exact Heq|]. split; [exact Hlen|].
  apply Hsym; cbn; lia.
Defined.

(** ** [infer_frequency]: the failure paths *)

(** Without peak differences the second density has no rows to stack. *)
Lemma infer_frequency_no_diffs (spike_times : list Q) (t1 t2 res : Q)
    (prom : option Q) (time_step : Q) :
  peak_location_diffs spike_times t1 res prom = Ok [] ->
  infer_frequency spike_times t1 t2 res prom time_step = NaN.
Proof.
  intro H. unfold infer_frequency, infer_frequency_try. rewrite H. cbn [bind].
  destruct (arange 0 15 time_step); reflexivity.
Qed.

Lemma take_length {A : Type} (a : list A) (idxs : list nat) (l : list A) :
  take a idxs = Ok l -> length l = length idxs.
Proof.
  unfold take. revert l. induction idxs as [|i idxs IH]; intros l H; cbn in H.
  - injection H as <-. reflexivity.
  - destruct (index a i); [|discriminate]. cbn [bind] in H.
    destruct (map_result (index a) idxs) as [l'|]; [|discriminate].
    cbn [bind] in H. injection H as <-. cbn. rewrite (IH l' eq_refl).
    reflexivity.
Qed.

Lemma np_diff_short (a : list Q) : (length a <= 1)%nat -> np_diff a = [].
Proof. destruct a as [|x [|y a]]; cbn; intros; [reflexivity|reflexivity|lia]. Qed.

(** With at most one detected peak there is no difference to smooth. *)
Lemma infer_frequency_few_peaks (spike_times : list Q) (t1 t2 res : Q)
    (prom : option Q) (time_step : Q) (isi_bin : list Q) (isi_hist_g : list R) :
  isi_density spike_times t1 res = Ok (isi_bin, isi_hist_g) ->
  (length (find_peaks isi_hist_g (option_map Q2R prom)) <= 1)%nat ->
  infer_frequency spike_times t1 t2 res prom time_step = NaN.
Proof.
  intros Hd Hp.
  destruct (peak_location_diffs spike_times t1 res prom) as [diffs|e] eqn:E.
  - apply infer_frequency_no_diffs. rewrite E. f_equal.
    unfold peak_location_diffs in E. rewrite Hd in E. cbn [bind] in E.
    destruct (take isi_bin (find_peaks isi_hist_g (option_map Q2R prom)))
      as [locations|] eqn:Et; [|discriminate].
    cbn [bind] in E. injection E as <-.
    apply np_diff_short. rewrite (take_length _ _ _ Et). exact Hp.
  - unfold infer_frequency, infer_frequency_try. rewrite E. reflexivity.
Qed.

(** C5: [infer_frequency] returns a value on every input: the quotient when
    the pipeline runs through and NaN when any step raises; in particular
    NaN for fewer than two spikes, for a density without peaks above the
    prominence threshold, and for an empty array of peak differences. *)
Theorem infer_frequency_never_raises (spike_times : list Q) (t1 t2 res : Q)
    (prom : option Q) (time_step : Q) :
  (infer_frequency spike_times t1 t2 res prom time_step =
   match infer_frequency_try spike_times t1 t2 res prom time_step with
   | Ok frequency => frequency
   | Raise _ => NaN
   end) /\
  ((length spike_times < 2)%nat ->
   np_diff spike_times = [] /\
   infer_frequency spike_times t1 t2 res prom time_step = NaN) /\
  (forall isi_bin isi_hist_g,
      isi_density spike_times t1 res = Ok (isi_bin, isi_hist_g) ->
      find_peaks isi_hist_g (option_map Q2R prom) = [] ->
      infer_frequency spike_times t1 t2 res prom time_step = NaN) /\
  (peak_location_diffs spike_times t1 res prom = Ok [] ->
   infer_frequency spike_times t1 t2 res prom time_step = NaN).
Proof.
  split; [reflexivity|]. split; [|split].
  - intro Hlen.
    assert (Hisi : np_diff spike_times = [])
      by (apply np_diff_short; lia).
    split; [exact Hisi|].
    unfold infer_frequency, infer_frequency_try, peak_location_diffs,
      isi_density.
    rewrite Hisi. cbn [map].
    destruct (arange 0 350 res); reflexivity.
  - intros isi_bin isi_hist_g Hd Hp.
    apply (infer_frequency_few_peaks _ _ _ _ _ _ isi_bin isi_hist_g Hd).
    rewrite Hp. cbn. lia.
  - apply infer_frequency_no_diffs.
Qed.

Lemma infer_frequency_never_raises_witness :
  np_diff [5] = [] /\ infer_frequency_default [5] = NaN.
Proof.
  apply (infer_frequency_never_raises [5] (6#10) (3#10) (1#10) (Some (1#2)) (1#100)).
  cbn. lia.
Defined.

(** ** [find_peaks]: the loops end by their own conditions *)

Lemma look_ahead_ge (fuel : nat) (x : list R) (i i_ahead i_max : nat) :
  (i_ahead <= look_ahead fuel x i i_ahead i_max)%nat.
Proof.
  revert i_ahead. induction fuel as [|fuel IH]; intro i_ahead; cbn [look_ahead]; [lia|].
  destruct ((i_ahead <? i_max)%nat && R_eqb (nth i_ahead x 0%R) (nth i x 0%R));
    [|lia].
  specialize (IH (S i_ahead)). lia.
Qed.

(** With enough fuel the look-ahead stops where the [while] condition
    fails. *)
Lemma look_ahead_stops (fuel : nat) (x : list R) (i i_ahead i_max : nat) :
  (i_max - i_ahead <= fuel)%nat ->
  let stop := look_ahead fuel x i i_ahead i_max in
  (stop <? i_max)%nat && R_eqb (nth stop x 0%R) (nth i x 0%R) = false.
Proof.
  revert i_ahead. induction fuel as [|fuel IH]; intros i_ahead Hfuel; cbn [look_ahead].
  - assert (E : (i_ahead <? i_max)%nat = false) by (apply Nat.ltb_ge; lia).
    rewrite E. reflexivity.
  - destruct ((i_ahead <? i_max)%nat && R_eqb (nth i_ahead x 0%R) (nth i x 0%R))
      eqn:E; [|exact E].
    apply IH. lia.
Qed.

(** The outer loop does not depend on the fuel once there is enough. *)
Lemma local_maxima_loop_fuel (x : list R) (i_max : nat) (fuel1 fuel2 i : nat) :
  (i_max - i <= fuel1)%nat -> (i_max - i <= fuel2)%nat ->
  local_maxima_loop fuel1 x i i_max = local_maxima_loop fuel2 x i i_max.
Proof.
  revert fuel2 i. induction fuel1 as [|fuel1 IH]; intros fuel2 i H1 H2.
  - assert (E : (i <? i_max)%nat = false) by (apply Nat.ltb_ge; lia).
    destruct fuel2; cbn [local_maxima_loop]; [reflexivity|]. rewrite E. reflexivity.
  - destruct fuel2 as [|fuel2].
    + assert (E : (i <? i_max)%nat = false) by (apply Nat.ltb_ge; lia).
      cbn [local_maxima_loop]. rewrite E. reflexivity.
    + cbn [local_maxima_loop]. destruct (i <? i_max)%nat eqn:E; [|reflexivity].
      apply Nat.ltb_lt in E.
      pose proof (look_ahead_ge (length x) x i (i + 1) i_max) as Hge.
      destruct (R_ltb (nth (i - 1) x 0%R) (nth i x 0%R)).
      * destruct (R_ltb (nth (look_ahead (length x) x i (i + 1) i_max) x 0%R)
                        (nth i x 0%R)).
        -- f_equal. apply IH; lia.
        -- apply IH; lia.
      * apply IH; lia.
Qed.

(** [len(x)] is enough fuel for both loops of [_local_maxima_1d]. *)
Lemma local_maxima_1d_fuel (x : list R) (fuel : nat) :
  (length x <= fuel)%nat ->
  local_maxima_loop fuel x 1 (length x - 1) = local_maxima_1d x.
Proof.
  intro H. unfold local_maxima_1d. apply local_maxima_loop_fuel; lia.
Qed.

Lemma look_ahead_in_array_stops (x : list R) (i : nat) :
  let stop := look_ahead (length x) x i (i + 1) (length x - 1) in
  (stop <? length x - 1)%nat && R_eqb (nth stop x 0%R) (nth i x 0%R) = false.
Proof. apply look_ahead_stops. lia. Qed.

(** The detected maxima come out in increasing order. *)
Lemma local_maxima_loop_sorted (fuel : nat) (x : list R) (i i_max : nat) :
  StronglySorted lt (local_maxima_loop fuel x i i_max) /\
  Forall (fun p => (i <= p)%nat) (local_maxima_loop fuel x i i_max).
Proof.
  revert i. induction fuel as [|fuel IH]; intro i; cbn [local_maxima_loop].
  - split; constructor.
  - destruct (i <? i_max)%nat; [|split; constructor].
    assert (Hnext : StronglySorted lt (local_maxima_loop fuel x (i + 1) i_max) /\
                    Forall (fun p => (i <= p)%nat)
                           (local_maxima_loop fuel x (i + 1) i_max)).
    { destruct (IH (i + 1)%nat) as [Hs Hb]. split; [exact Hs|].
      eapply Forall_impl; [|exact Hb]. cbn. intros; lia. }
    destruct (R_ltb (nth (i - 1) x 0%R) (nth i x 0%R)); [|exact Hnext].
    pose proof (look_ahead_ge (length x) x i (i + 1) i_max) as Hge.
    set (i_ahead := look_ahead (length x) x i (i + 1) i_max) in *.
    destruct (R_ltb (nth i_ahead x 0%R) (nth i x 0%R)); [|exact Hnext].
    destruct (IH (i_ahead + 1)%nat) as [Hs Hb].
    assert (Hmid : (i <= (i + (i_ahead - 1)) / 2 < i_ahead + 1)%nat).
    { split.
      - apply Nat.div_le_lower_bound; lia.
      - apply Nat.Div0.div_lt_upper_bound; lia. }
    split.
    + constructor; [exact Hs|].
      eapply Forall_impl; [|exact Hb]. cbn beta. intros; lia.
    + constructor; [lia|].
      eapply Forall_impl; [|exact Hb]. cbn beta. intros; lia.
Qed.

Lemma filter_sorted {A : Type} (R : A -> A -> Prop) (f : A -> bool) (l : list A) :
  StronglySorted R l -> StronglySorted R (filter f l).
Proof.
  induction 1 as [|a l Hs IH Ha]; cbn; [constructor|].
  destruct (f a); [|exact IH].
  constructor; [exact IH|].
  apply Forall_forall. intros b Hb. apply filter_In in Hb.
  rewrite Forall_forall in Ha. apply Ha, Hb.
Qed.

Lemma find_peaks_sorted (x : list R) (prominence : option R) :
  StronglySorted lt (find_peaks x prominence).
Proof.
  unfold find_peaks, local_maxima_1d.
  destruct prominence; [apply filter_sorted|];
    apply local_maxima_loop_sorted.
Qed.

(** ** The ISI density is positive and sums to one *)

Open Scope R_scope.

Lemma gaussian_at_pos (x mu sig : Q) :
  0 < Q2R sig -> 0 < gaussian_at x mu sig.
Proof.
  intro Hsig. unfold gaussian_at.
  apply Rmult_lt_0_compat; [|apply exp_pos].
  apply Rdiv_lt_0_compat; [lra|].
  apply Rmult_lt_0_compat; [|exact Hsig].
  apply sqrt_lt_R0. pose proof PI_RGT_0. lra.
Qed.

Lemma gaussian_pos (x : list Q) (mu sig : Q) :
  0 < Q2R sig -> Forall (fun v => 0 < v) (gaussian x mu sig).
Proof.
  intro Hsig. unfold gaussian. apply Forall_map, Forall_forall.
  intros xi _. apply gaussian_at_pos, Hsig.
Qed.

Lemma zip_with_Rplus_pos (a b : list R) :
  Forall (fun v => 0 < v) a -> Forall (fun v => 0 < v) b ->
  Forall (fun v => 0 < v) (zip_with Rplus a b).
Proof.
  intro Ha. revert b. induction Ha as [|x a Hx Ha IH]; intros b Hb; cbn;
    [constructor|].
  destruct Hb as [|y b Hy Hb]; constructor; [lra|apply IH, Hb].
Qed.

Lemma sum_axis0_pos (m : list (list R)) :
  Forall (fun row => Forall (fun v => 0 < v) row) m ->
  Forall (fun v => 0 < v) (sum_axis0 m).
Proof.
  intro H. destruct H as [|row rows Hrow Hrows]; cbn; [constructor|].
  revert row Hrow. induction Hrows as [|r rows Hr _ IH]; intros row Hrow; cbn;
    [exact Hrow|].
  apply IH. apply zip_with_Rplus_pos; assumption.
Qed.

Lemma R_sum_pos (a : list R) :
  a <> [] -> Forall (fun v => 0 < v) a -> 0 < R_sum a.
Proof.
  intros Hne H. destruct H as [|x a Hx Ha]; [congruence|]. cbn.
  assert (0 <= R_sum a); [|lra].
  clear Hne Hx. induction Ha as [|y a Hy _ IH]; cbn; lra.
Qed.

Lemma R_sum_map_div (a : list R) (c : R) :
  R_sum (map (fun v => v / c) a) = R_sum a / c.
Proof. induction a as [|x a IH]; cbn; [lra|]. rewrite IH. lra. Qed.

(** After the division by its sum the density is positive with sum 1. *)
Lemma normalised_density (h : list R) :
  h <> [] -> Forall (fun v => 0 < v) h ->
  Forall (fun v => 0 < v) (map (fun v => v / R_sum h) h) /\
  R_sum (map (fun v => v / R_sum h) h) = 1.
Proof.
  intros Hne H. pose proof (R_sum_pos h Hne H) as Hs. split.
  - apply Forall_map. eapply Forall_impl; [|exact H].
    cbn beta. intros v Hv. apply Rdiv_lt_0_compat; assumption.
  - rewrite R_sum_map_div. field. lra.
Qed.

(** ** At most one peak can hold half of the mass *)

Lemma walk_min_cases (height cur_min : R) (samples : list R) :
  walk_min height cur_min samples = cur_min \/
  In (walk_min height cur_min samples) samples.
Proof.
  revert cur_min. induction samples as [|v rest IH]; intro cur_min; cbn;
    [left; reflexivity|].
  destruct (R_leb v height); [|left; reflexivity].
  destruct (IH (if R_ltb v cur_min then v else cur_min)) as [E|Hin].
  - rewrite E. destruct (R_ltb v cur_min); auto.
  - right. right. exact Hin.
Qed.

Lemma R_sum_ge_nth (a : list R) (p : nat) :
  Forall (fun v => 0 < v) a -> nth p a 0 <= R_sum a.
Proof.
  intro H. revert p. induction H as [|x a Hx Ha IH]; intros [|p]; cbn;
    try lra.
  - assert (0 <= R_sum a); [|lra].
    clear IH. induction Ha as [|y a Hy _ IH]; cbn; lra.
  - specialize (IH p). lra.
Qed.

Lemma R_sum_ge_two (a : list R) (p q : nat) :
  Forall (fun v => 0 < v) a -> (p < q)%nat ->
  nth p a 0 + nth q a 0 <= R_sum a.
Proof.
  intro H. revert p q. induction H as [|x a Hx Ha IH]; intros p q Hpq.
  - destruct p, q; cbn; lra.
  - destruct q as [|q]; [lia|]. destruct p as [|p]; cbn.
    + pose proof (R_sum_ge_nth a q Ha). lra.
    + assert (Hpq' : (p < q)%nat) by lia. specialize (IH p q Hpq'). lra.
Qed.

(** A peak that passes a prominence threshold of at least one half rises
    above one half: both bases are samples, hence positive. *)
Lemma prominent_peak_height (x : list R) (pmin : R) (p : nat) :
  Forall (fun v => 0 < v) x -> 1 / 2 <= pmin ->
  R_leb pmin (peak_prominence x p) = true ->
  1 / 2 < nth p x 0.
Proof.
  intros Hx Hpmin Hkeep. unfold R_leb in Hkeep.
  destruct (Rle_dec pmin (peak_prominence x p)) as [Hle|]; [|discriminate].
  clear Hkeep. unfold peak_prominence in Hle.
  set (height := nth p x 0) in *.
  set (right_min := walk_min height height (skipn p x)) in *.
  set (left_min := walk_min height height (rev (firstn (S p) x))) in *.
  pose proof (Rmax_r left_min right_min) as Hmax.
  destruct (walk_min_cases height height (skipn p x)) as [E|Hin];
    fold right_min in E || fold right_min in Hin.
  - lra.
  - assert (0 < right_min); [|lra].
    rewrite Forall_forall in Hx. apply Hx.
    rewrite <- (firstn_skipn p x). apply in_or_app. right. exact Hin.
Qed.

Lemma at_most_one_prominent_peak (x : list R) (pmin : R) :
  Forall (fun v => 0 < v) x -> R_sum x <= 1 -> 1 / 2 <= pmin ->
  (length (find_peaks x (Some pmin)) <= 1)%nat.
Proof.
  intros Hx Hsum Hpmin.
  pose proof (find_peaks_sorted x (Some pmin)) as Hsorted.
  assert (Hkept : Forall (fun p => 1 / 2 < nth p x 0) (find_peaks x (Some pmin))).
  { unfold find_peaks. apply Forall_forall. intros p Hp.
    apply filter_In in Hp. destruct Hp as [_ Hp].
    apply (prominent_peak_height x pmin p Hx Hpmin Hp). }
  destruct (find_peaks x (Some pmin)) as [|p [|q rest]]; cbn; try lia.
  exfalso.
  inversion Hsorted as [|? ? _ Hlt]; subst.
  inversion Hlt as [|? ? Hpq _]; subst.
  inversion Hkept as [|? ? Hp Hkept']; subst.
  inversion Hkept' as [|? ? Hq _]; subst.
  pose proof (R_sum_ge_two x p q Hx Hpq). lra.
Qed.

Close Scope R_scope.

(** ** [infer_frequency] under a prominence threshold of one half or more *)

Lemma isi_density_shape (spike_times : list Q) (t1 res : Q)
    (isi_bin : list Q) (isi_hist_g : list R) :
  (0 < Q2R t1)%R ->
  isi_density spike_times t1 res = Ok (isi_bin, isi_hist_g) ->
  Forall (fun v => (0 < v)%R) isi_hist_g /\ (R_sum isi_hist_g <= 1)%R.
Proof.
  intros Ht1 H. unfold isi_density in H.
  destruct (arange 0 350 res) as [bins|]; [|discriminate]. cbn [bind] in H.
  destruct (map (fun i => gaussian bins i t1) (np_diff spike_times))
    as [|row rows] eqn:Erows; [discriminate|].
  cbn [vstack bind] in H. injection H as <- <-.
  change (fold_left (zip_with Rplus) rows row) with (sum_axis0 (row :: rows)).
  assert (Hpos : Forall (fun v => (0 < v)%R) (sum_axis0 (row :: rows))).
  { apply sum_axis0_pos. rewrite <- Erows. apply Forall_map, Forall_forall.
    intros i _. apply gaussian_pos, Ht1. }
  destruct (sum_axis0 (row :: rows)) as [|v h] eqn:Eh.
  - split; [constructor|]. cbn. lra.
  - destruct (normalised_density (v :: h)) as [Hn1 Hn2];
      [discriminate|exact Hpos|].
    split; [exact Hn1|]. rewrite Hn2. lra.
Qed.

(** Whatever the spike train, a density that sums to one has at most one
    peak of prominence one half or more, so there is no peak difference
    and the result is NaN. *)
Lemma infer_frequency_half_prominence (spike_times : list Q)
    (t1 t2 res prom time_step : Q) :
  (0 < Q2R t1)%R -> (1 / 2 <= Q2R prom)%R ->
  infer_frequency spike_times t1 t2 res (Some prom) time_step = NaN.
Proof.
  intros Ht1 Hprom.
  destruct (isi_density spike_times t1 res) as [[isi_bin isi_hist_g]|e] eqn:E.
  - apply (infer_frequency_few_peaks _ _ _ _ _ _ isi_bin isi_hist_g E).
    destruct (isi_density_shape _ _ _ _ _ Ht1 E) as [Hpos Hsum].
    apply at_most_one_prominent_peak; assumption.
  - unfold infer_frequency, infer_frequency_try, peak_location_diffs.
    rewrite E. reflexivity.
Qed.

Lemma infer_frequency_default_nan (spike_times : list Q) :
  infer_frequency_default spike_times = NaN.
Proof.
  apply infer_frequency_half_prominence; unfold Q2R; cbn; lra.
Qed.

(** C1, as stated, fails: on the periodic train [0, 10, 20] (T = 10 ms)
    the default call returns the NaN sentinel, not a frequency near
    100 Hz. *)
Lemma infer_frequency_periodic_counterexample :
  periodic 10 [0; 10; 20] /\
  infer_frequency_default [0; 10; 20] = NaN /\
  ~ (exists f, infer_frequency_default [0; 10; 20] = Finite f /\
               Qabs (f - 1000 / 10) <= 1).
Proof.
  split; [|split].
  - split; [cbn; lia|]. repeat constructor.
  - apply infer_frequency_default_nan.
  - intros [f [Hf _]]. rewrite infer_frequency_default_nan in Hf. discriminate.
Qed.

(** C1 (amended): for every perfectly periodic spike train (at least two
    spikes, consecutive spike times differing by exactly [T]),
    [infer_frequency] with its default tuning parameters returns the NaN
    sentinel. *)
Theorem infer_frequency_periodic_nan (T : Q) (spike_times : list Q) :
  periodic T spike_times ->
  infer_frequency_default spike_times = NaN.
Proof. intros _. apply infer_frequency_default_nan. Qed.

Lemma infer_frequency_periodic_nan_witness :
  periodic 4 [1; 5; 9; 13] /\ infer_frequency_default [1; 5; 9; 13] = NaN.
Proof.
  assert (H : periodic 4 [1; 5; 9; 13]).
  { split; [cbn; lia|]. repeat constructor. }
  split; [exact H|].
  apply (infer_frequency_periodic_nan 4 [1; 5; 9; 13] H).
Defined.

(** ** A run of [infer_frequency] that ends in a division by zero *)

Open Scope R_scope.

Lemma R_ltb_true (x y : R) : x < y -> R_ltb x y = true.
Proof. intro H. unfold R_ltb. destruct (Rlt_dec x y); [reflexivity|contradiction]. Qed.

Lemma R_leb_true (x y : R) : x <= y -> R_leb x y = true.
Proof. intro H. unfold R_leb. destruct (Rle_dec x y); [reflexivity|contradiction]. Qed.

Lemma R_eqb_false (x y : R) : x <> y -> R_eqb x y = false.
Proof. intro H. unfold R_eqb. destruct (Req_dec_T x y); [contradiction|reflexivity]. Qed.

Lemma walk_min_le_cur (height cur_min : R) (samples : list R) :
  walk_min height cur_min samples <= cur_min.
Proof.
  revert cur_min. induction samples as [|v rest IH]; intro cur_min; cbn;
    [lra|].
  destruct (R_leb v height); [|lra].
  specialize (IH (if R_ltb v cur_min then v else cur_min)).
  unfold R_ltb in *. destruct (Rlt_dec v cur_min); lra.
Qed.

(** A base is no higher than the neighbour of the peak on its side. *)
Lemma walk_min_le_neighbour (height v : R) (rest : list R) :
  v <= height ->
  walk_min height height (height :: v :: rest) <= v.
Proof.
  intro Hv. cbn [walk_min].
  rewrite (R_leb_true height height) by lra.
  rewrite (R_leb_true v height) by exact Hv.
  assert (E : R_ltb height height = false).
  { unfold R_ltb. destruct (Rlt_dec height height); [lra|reflexivity]. }
  rewrite E.
  eapply Rle_trans; [apply walk_min_le_cur|].
  unfold R_ltb. destruct (Rlt_dec v height); lra.
Qed.

(** Five samples with two bumps: both bumps are peaks when they stand
    [pmin] above their neighbours. *)
Lemma find_peaks_two_bumps (x0 x1 x2 x3 x4 pmin : R) :
  x0 < x1 -> x2 < x1 -> x2 < x3 -> x4 < x3 ->
  pmin <= x1 - x0 -> pmin <= x1 - x2 -> pmin <= x3 - x2 -> pmin <= x3 - x4 ->
  find_peaks [x0; x1; x2; x3; x4] (Some pmin) = [1%nat; 3%nat].
Proof.
  intros H01 H21 H23 H43 P10 P12 P32 P34.
  assert (Hmax : local_maxima_1d [x0; x1; x2; x3; x4] = [1%nat; 3%nat]).
  { unfold local_maxima_1d. cbn.
    rewrite (R_ltb_true x0 x1), (R_eqb_false x2 x1) by lra. cbn.
    rewrite (R_ltb_true x2 x1), (R_ltb_true x2 x3) by lra. cbn.
    rewrite (R_ltb_true x4 x3) by lra.
    reflexivity. }
  unfold find_peaks. rewrite Hmax. cbn [filter].
  assert (Hp1 : pmin <= peak_prominence [x0; x1; x2; x3; x4] 1).
  { unfold peak_prominence. cbn [nth firstn skipn rev app].
    pose proof (walk_min_le_neighbour x1 x0 [] ltac:(lra)).
    pose proof (walk_min_le_neighbour x1 x2 [x3; x4] ltac:(lra)).
    apply Rle_trans with (r2 := x1 - Rmax x0 x2).
    - apply Rmax_case; lra.
    - apply Rplus_le_compat_l, Ropp_le_contravar.
      apply Rmax_lub; (eapply Rle_trans; [eassumption|]);
        [apply Rmax_l|apply Rmax_r]. }
  assert (Hp3 : pmin <= peak_prominence [x0; x1; x2; x3; x4] 3).
  { unfold peak_prominence. cbn [nth firstn skipn rev app].
    pose proof (walk_min_le_neighbour x3 x2 [x1; x0] ltac:(lra)).
    pose proof (walk_min_le_neighbour x3 x4 [] ltac:(lra)).
    apply Rle_trans with (r2 := x3 - Rmax x2 x4).
    - apply Rmax_case; lra.
    - apply Rplus_le_compat_l, Ropp_le_contravar.
      apply Rmax_lub; (eapply Rle_trans; [eassumption|]);
        [apply Rmax_l|apply Rmax_r]. }
  rewrite (R_leb_true _ _ Hp1), (R_leb_true _ _ Hp3). reflexivity.
Qed.

Lemma gaussian_height_pos (sig : Q) : 0 < Q2R sig -> 0 < gaussian_height sig.
Proof.
  intro Hsig. unfold gaussian_height.
  apply Rdiv_lt_0_compat; [lra|].
  apply Rmult_lt_0_compat; [|exact Hsig].
  apply sqrt_lt_R0. pose proof PI_RGT_0. lra.
Qed.

Lemma gaussian_at_centre (x mu sig : Q) :
  (x == mu)%Q -> gaussian_at x mu sig = gaussian_height sig.
Proof.
  intro E. unfold gaussian_at, gaussian_height.
  rewrite (Qeq_eqR x mu E).
  replace (- ((Q2R mu - Q2R mu) / Q2R sig) ^ 2 / 2) with 0
    by (unfold Rdiv; ring).
  rewrite exp_0. ring.
Qed.

Lemma exp_neg_small (w : R) : 8 <= w -> exp (- w) < 1 / 8.
Proof.
  intro Hw.
  pose proof (exp_ineq1_le w) as Hge.
  pose proof (exp_pos (- w)) as Hpos.
  assert (Hprod : exp (- w) * exp w = 1).
  { rewrite <- exp_plus. replace (- w + w) with 0 by ring. apply exp_0. }
  nra.
Qed.

(** Four spreads away from the centre the kernel is below an eighth of
    its height. *)
Lemma gaussian_at_far (x mu sig : Q) :
  0 < Q2R sig ->
  (16 * (sig * sig) <= (x - mu) * (x - mu))%Q ->
  0 < gaussian_at x mu sig < gaussian_height sig / 8.
Proof.
  intros Hsig Hfar. split; [apply gaussian_at_pos, Hsig|].
  pose proof (gaussian_height_pos sig Hsig) as Hc.
  unfold gaussian_at. fold (gaussian_height sig).
  apply Qle_Rle in Hfar.
  rewrite !Q2R_mult, Q2R_minus in Hfar.
  replace (Q2R 16) with 16 in Hfar by (unfold Q2R; cbn; lra).
  set (d := Q2R x - Q2R mu) in *. set (s := Q2R sig) in *.
  assert (Hw : 8 <= (d / s) ^ 2 / 2).
  { assert (Hz : 16 <= (d / s) ^ 2).
    { replace ((d / s) ^ 2) with (d * d / (s * s)) by (field; lra).
      apply Rmult_le_reg_r with (r := s * s); [nra|].
      replace (d * d / (s * s) * (s * s)) with (d * d) by (field; lra).
      lra. }
    lra. }
  pose proof (exp_neg_small _ Hw) as Hexp.
  replace (- (d / s) ^ 2 / 2) with (- ((d / s) ^ 2 / 2)) by lra.
  pose proof (exp_pos (- ((d / s) ^ 2 / 2))).
  nra.
Qed.

(** Division by a positive sum keeps strict order and scaled gaps. *)
Lemma find_peaks_two_bumps_normalised (h0 h1 h2 h3 h4 total pmin : R) :
  0 < total ->
  h0 < h1 -> h2 < h1 -> h2 < h3 -> h4 < h3 ->
  pmin * total <= h1 - h0 -> pmin * total <= h1 - h2 ->
  pmin * total <= h3 - h2 -> pmin * total <= h3 - h4 ->
  find_peaks [h0 / total; h1 / total; h2 / total; h3 / total; h4 / total]
             (Some pmin)
  = [1%nat; 3%nat].
Proof.
  intros Ht H01 H21 H23 H43 P10 P12 P32 P34.
  assert (Hinv : 0 < / total) by (apply Rinv_0_lt_compat, Ht).
  assert (Hone : total * / total = 1) by (apply Rinv_r; lra).
  unfold Rdiv.
  apply find_peaks_two_bumps; nra.
Qed.

Ltac bound_kernels Hsig :=
  repeat match goal with
    | |- context [gaussian_at ?x ?mu ?s] =>
        lazymatch goal with
        | _ : gaussian_at x mu s = _ |- _ => fail
        | _ : 0 < gaussian_at x mu s < _ |- _ => fail
        | _ => idtac
        end;
        first
          [ pose proof (gaussian_at_centre x mu s ltac:(vm_compute; reflexivity))
          | pose proof (gaussian_at_far x mu s Hsig ltac:(vm_compute; discriminate)) ]
    end.

Close Scope R_scope.

Lemma infer_frequency_two_intervals :
  infer_frequency [0; 70; 280] (6#10) (3#10) 70 (Some (1#4)) 15 = PosInf.
Proof.
  unfold infer_frequency, infer_frequency_try, peak_location_diffs, isi_density.
  assert (Hbins : arange 0 350 70 = Ok [0; 70; 140; 210; 280])
    by (vm_compute; reflexivity).
  rewrite Hbins.
  cbn [bind np_diff map vstack gaussian sum_axis0 fold_left zip_with option_map].
  match goal with
  | |- context [find_peaks ?l ?p] =>
      assert (Hpk : find_peaks l p = [1%nat; 3%nat])
  end.
  { assert (Hsig : (0 < Q2R (6#10))%R) by (unfold Q2R; cbn; lra).
    pose proof (gaussian_height_pos (6#10) Hsig) as Hc.
    bound_kernels Hsig.
    apply find_peaks_two_bumps_normalised; cbn [R_sum];
      try (unfold Q2R at 1; cbn [Qnum Qden]); lra. }
  rewrite Hpk.
  reflexivity.
Qed.

(** C10: there is a spike train on which [infer_frequency] returns
    positive infinity instead of the NaN sentinel.  For the train
    [0, 70, 280] (with [res=70], [prom=0.25], [time_step=15]) the density
    has two peaks, the single bin of the second density is position 0, and
    [1000 / 0.0] is [+inf]: nothing is raised, so the [except] branch is
    not taken and a non-finite value other than NaN is returned. *)
Theorem infer_frequency_returns_inf :
  (exists spike_times t1 t2 res prom time_step,
      infer_frequency spike_times t1 t2 res prom time_step = PosInf) /\
  infer_frequency_try [0; 70; 280] (6#10) (3#10) 70 (Some (1#4)) 15 = Ok PosInf /\
  infer_frequency [0; 70; 280] (6#10) (3#10) 70 (Some (1#4)) 15 = PosInf /\
  np_true_divide 1000 0 = PosInf /\
  isfinite PosInf = false /\
  PosInf <> NaN.
Proof.
  pose proof infer_frequency_two_intervals as H.
  split; [|split; [|split; [|split; [|split]]]].
  - exists [0; 70; 280], (6#10), (3#10), 70, (Some (1#4)), 15. exact H.
  - unfold infer_frequency in H.
    destruct (infer_frequency_try [0; 70; 280] (6#10) (3#10) 70 (Some (1#4)) 15);
      cbn in H; [rewrite H; reflexivity|discriminate].
  - exact H.
  - reflexivity.
  - reflexivity.
  - discriminate.
Qed.

(** ** The sweep drivers: nuisance draws *)

Lemma advance_advance (g : rng) (n m : nat) :
  advance (advance g n) m = advance g (n + m).
Proof. unfold advance. cbn. f_equal. lia. Qed.

Lemma uniform_draws_length (low high : Q) (g : rng) (size : nat) :
  length (uniform_draws low high g size) = size.
Proof. unfold uniform_draws. rewrite length_map, length_seq. reflexivity. Qed.

Lemma uniform_draws_nth (low high : Q) (g : rng) (size k : nat) :
  (k < size)%nat ->
  nth k (uniform_draws low high g size) 0 =
  low + (high - low) * samples g (cursor g + k)%nat.
Proof.
  intro Hk. unfold uniform_draws.
  rewrite (nth_map_lt _ _ k 0%nat) by (rewrite length_seq; exact Hk).
  rewrite seq_nth by exact Hk. reflexivity.
Qed.

(** [uniform] reads [size] consecutive samples, one per returned value, and
    leaves the cursor behind them. *)
Lemma uniform_spec (low high : Q) (size : nat) (g : rng) :
  uniform low high size g = (uniform_draws low high g size, advance g size).
Proof.
  revert g. induction size as [|size IH]; intro g.
  - cbn. f_equal. destruct g as [s c]. unfold advance. cbn. f_equal. lia.
  - cbn [uniform random_sample]. rewrite IH, advance_advance.
    f_equal. unfold uniform_draws. cbn [seq map].
    rewrite Nat.add_0_r. f_equal.
    rewrite <- seq_shift, map_map. apply map_ext. intro k.
    cbn [advance samples cursor]. do 3 f_equal. lia.
Qed.

Lemma frequency_step_calls (model : Model) (unit a0 a1 t_max : Q)
    (t1 t2 prom : option Q) (infer_res time_step : Q)
    (st : sweep np_float) (freq : Q) :
  let st' := frequency_step model unit a0 a1 t_max t1 t2 prom infer_res
                            time_step st freq in
  calls st' =
    calls st ++
    frequency_calls unit t_max freq
      (uniform_draws a0 a1 (gen st) (neurons_N model)) /\
  gen st' = advance (gen st) (neurons_N model).
Proof.
  unfold frequency_step. rewrite uniform_spec. cbn. split; reflexivity.
Qed.

Lemma amplitude_step_calls (model : Model) (unit f0 f1 t_max : Q)
    (st : sweep nat) (amp : Q) :
  let st' := amplitude_step model unit f0 f1 t_max st amp in
  calls st' =
    calls st ++
    amplitude_calls unit t_max amp
      (uniform_draws f0 f1 (gen st) (neurons_N model)) /\
  gen st' = advance (gen st) (neurons_N model).
Proof.
  unfold amplitude_step. rewrite uniform_spec. cbn. split; reflexivity.
Qed.

(** The calls of a whole sweep: iteration [i] uses the samples from
    [i * N] on. *)
Lemma sweep_calls {M : Type} (step : sweep M -> Q -> sweep M)
    (block : rng -> Q -> list model_call) (n : nat) :
  (forall st level,
      calls (step st level) = calls st ++ block (gen st) level /\
      gen (step st level) = advance (gen st) n) ->
  forall levels st,
    calls (fold_left step levels st) =
      calls st ++
      concat (map (fun p => block (advance (gen st) (fst p * n)) (snd p))
                  (combine (seq 0 (length levels)) levels)) /\
    gen (fold_left step levels st) = advance (gen st) (length levels * n).
Proof.
  intros Hstep levels. induction levels as [|level levels IH]; intro st.
  - cbn. rewrite app_nil_r. split; [reflexivity|].
    destruct (gen st) as [s c]. unfold advance. cbn. f_equal. lia.
  - cbn [fold_left length seq combine map concat].
    destruct (IH (step st level)) as [IHc IHg].
    destruct (Hstep st level) as [Hc Hg].
    rewrite IHc, IHg, Hc, Hg, advance_advance. split; [|reflexivity].
    rewrite <- app_assoc. f_equal.
    assert (E0 : advance (gen st) (fst (0%nat, level) * n) = gen st).
    { destruct (gen st) as [s c]. unfold advance. cbn. f_equal. lia. }
    rewrite E0. cbn [snd]. f_equal. f_equal.
    rewrite <- seq_shift.
    generalize (seq 0 (length levels)) as idxs. clear.
    intro idxs. revert levels.
    induction idxs as [|i idxs IH]; intros [|l levels]; cbn; try reflexivity.
    rewrite advance_advance, IH. reflexivity.
Qed.

(** C9, as stated, fails: the frequency sweep passes
    [np.random.uniform(a0, a1, N)] — an array of [N] draws — to
    [set_stimulus_current].  With two units and the samples 0 and 1/4 the
    units receive the amplitudes 50 and 62.5: no single value is shared. *)
Lemma frequency_sweep_amplitude_not_shared :
  exists st s,
    evaluate_frequency_discrimination silent_pair 100 100 1 1 50 100 10
      None None None (1#4) (1#20) [] quarter_steps = Ok st /\
    In (SetStimulusCurrent s) (calls st) /\
    ~ shared_value s.
Proof.
  eexists. eexists. split; [vm_compute; reflexivity|]. split.
  - cbn. right. right. right. left. reflexivity.
  - intros [v H].
    inversion H as [|? ? Ha Ht]; subst.
    inversion Ht as [|? ? Hb _]; subst.
    rewrite <- Hb in Ha. vm_compute in Ha. discriminate.
Qed.

(** C9 (amended): in every iteration of both sweep drivers the nuisance
    parameter is an array of [N] draws, one per simulated unit: the
    frequency sweep sets the stimulus current to [N] amplitudes drawn from
    [[a0, a1)], the amplitude sweep sets [f] to [N] frequencies drawn from
    [[f0, f1)]; unit [k] of iteration [i] gets the sample [i * N + k]
    after the start of the sweep. *)
Theorem nuisance_drawn_per_unit (model : Model) (unit lo hi t_max : Q) :
  (forall t1 t2 prom infer_res time_step st freq,
      calls (frequency_step model unit lo hi t_max t1 t2 prom infer_res
                            time_step st freq) =
        calls st ++
        [Restore "initial"%string;
         SetF (Scalar (freq * Hz));
         SetStimulusCurrent
           (PerUnit (map (fun v => v * unit)
                         (uniform_draws lo hi (gen st) (neurons_N model))));
         Run t_max] /\
      gen (frequency_step model unit lo hi t_max t1 t2 prom infer_res
                          time_step st freq) =
        advance (gen st) (neurons_N model)) /\
  (forall st amp,
      calls (amplitude_step model unit lo hi t_max st amp) =
        calls st ++
        [Restore "initial"%string;
         SetStimulusCurrent (Scalar (amp * unit));
         SetF (PerUnit (map (fun v => v * Hz)
                            (uniform_draws lo hi (gen st) (neurons_N model))));
         Run t_max] /\
      gen (amplitude_step model unit lo hi t_max st amp) =
        advance (gen st) (neurons_N model)) /\
  (forall g,
      length (uniform_draws lo hi g (neurons_N model)) = neurons_N model /\
      forall k, (k < neurons_N model)%nat ->
        nth k (uniform_draws lo hi g (neurons_N model)) 0 =
        lo + (hi - lo) * samples g (cursor g + k)%nat) /\
  (forall f0 f1 res t1 t2 prom infer_res time_step calls0 g0 st,
      evaluate_frequency_discrimination model f0 f1 res unit lo hi t_max
        t1 t2 prom infer_res time_step calls0 g0 = Ok st ->
      exists levels,
        create_param_range f0 f1 res = Ok levels /\
        calls st =
          (calls0 ++ [Store "initial"%string]) ++
          concat (map (fun p =>
                         frequency_calls unit t_max (snd p)
                           (uniform_draws lo hi
                              (advance g0 (fst p * neurons_N model))
                              (neurons_N model)))
                      (combine (seq 0 (length levels)) levels))) /\
  (forall a0 a1 res calls0 g0 st,
      evaluate_amplitude_discrimination model a0 a1 res unit lo hi t_max
        calls0 g0 = Ok st ->
      exists levels,
        create_param_range a0 a1 res = Ok levels /\
        calls st =
          (calls0 ++ [Store "initial"%string]) ++
          concat (map (fun p =>
                         amplitude_calls unit t_max (snd p)
                           (uniform_draws lo hi
                              (advance g0 (fst p * neurons_N model))
                              (neurons_N model)))
                      (combine (seq 0 (length levels)) levels))).
Proof.
  split; [|split; [|split; [|split]]].
  - intros. apply frequency_step_calls.
  - intros. apply amplitude_step_calls.
  - intro g. split; [apply uniform_draws_length|].
    intros k Hk. apply uniform_draws_nth, Hk.
  - intros f0 f1 res t1 t2 prom infer_res time_step calls0 g0 st H.
    unfold evaluate_frequency_discrimination in H.
    destruct (create_param_range f0 f1 res) as [levels|]; [|discriminate].
    cbn [bind] in H. injection H as <-.
    exists levels. split; [reflexivity|].
    apply (sweep_calls
             (frequency_step model unit lo hi t_max t1 t2 prom infer_res time_step)
             (fun g freq => frequency_calls unit t_max freq
                              (uniform_draws lo hi g (neurons_N model)))
             (neurons_N model)).
    intros. apply frequency_step_calls.
  - intros a0 a1 res calls0 g0 st H.
    unfold evaluate_amplitude_discrimination in H.
    destruct (create_param_range a0 a1 res) as [levels|]; [|discriminate].
    cbn [bind] in H. injection H as <-.
    exists levels. split; [reflexivity|].
    apply (sweep_calls
             (amplitude_step model unit lo hi t_max)
             (fun g amp => amplitude_calls unit t_max amp
                             (uniform_draws lo hi g (neurons_N model)))
             (neurons_N model)).
    intros. apply amplitude_step_calls.
Qed.

Lemma nuisance_drawn_per_unit_witness :
  nth 1 (uniform_draws 50 100 quarter_steps (neurons_N silent_pair)) 0 =
  50 + (100 - 50) * samples quarter_steps (cursor quarter_steps + 1)%nat.
Proof.
  apply (nuisance_drawn_per_unit silent_pair 1 50 100 10). cbn. lia.
Defined.

(** ** Persistence: the round trip *)

Section PersistenceRoundTrip.
Import stdpp.base stdpp.gmap stdpp.strings.

Context {SpikeTimes InferedValues : Type}.
Variable pickle_dumps : SpikeTimes * InferedValues -> list Byte.byte.
Variable pickle_loads : list Byte.byte -> result (SpikeTimes * InferedValues).

(** The contract of [pickle] on the objects saved. *)
Hypothesis pickle_round_trip :
  forall obj, pickle_loads (pickle_dumps obj) = Ok obj.

(** [save] writes one file and leaves the others alone. *)
Lemma save_files (sim_name sim_type : string) (spike_times : SpikeTimes)
    (infered_values : InferedValues) (fs fs' : file_system) :
  save pickle_dumps sim_name sim_type spike_times infered_values fs = Ok fs' ->
  files fs' =
    <[pkl_path sim_name sim_type := pickle_dumps (spike_times, infered_values)]>
      (files fs).
Proof.
  unfold save. destruct (can_create fs (pkl_path sim_name sim_type));
    [|discriminate].
  intros [= <-]. reflexivity.
Qed.

(** C8: after [save(sim_name, sim_type, spike_times, infered_values)]
    has written its file, [load(sim_name, sim_type)] returns the pair
    [(spike_times, infered_values)]. *)
Theorem save_load_round_trip (sim_name sim_type : string)
    (spike_times : SpikeTimes) (infered_values : InferedValues)
    (fs fs' : file_system) :
  save pickle_dumps sim_name sim_type spike_times infered_values fs = Ok fs' ->
  load pickle_loads sim_name sim_type fs' = Ok (spike_times, infered_values).
Proof.
  intro Hsave. unfold load.
  rewrite (save_files _ _ _ _ _ _ Hsave), lookup_insert_eq.
  apply pickle_round_trip.
Qed.
End PersistenceRoundTrip.

Lemma save_load_round_trip_witness :
  exists fs',
    save two_bytes_dumps "sweep" "A" Byte.x01 Byte.x02 empty_save_data = Ok fs' /\
    load two_bytes_loads "sweep" "A" fs' = Ok (Byte.x01, Byte.x02).
Proof.
  assert (Hcodec : forall obj, two_bytes_loads (two_bytes_dumps obj) = Ok obj)
    by (intros [a b]; reflexivity).
  eexists. split; [reflexivity|].
  apply (save_load_round_trip two_bytes_dumps two_bytes_loads Hcodec
           "sweep" "A" Byte.x01 Byte.x02 empty_save_data).
  reflexivity.
Defined.

(* ================================================================== *)
(** * Part III: further properties *)
(* ================================================================== *)

(** ** [gaussian] *)

Lemma exp_neg_le_one (w : R) :
  (0 <= w)%R -> (exp (- w) <= 1)%R /\ (exp (- w) = 1%R -> w = 0%R).
Proof.
  intro Hw. destruct (Req_dec w 0) as [->|Hne].
  - rewrite Ropp_0, exp_0. split; [lra|reflexivity].
  - assert (Hlt : (exp (- w) < exp 0)%R) by (apply exp_increasing; lra).
    rewrite exp_0 in Hlt. split; [lra|intro E; lra].
Qed.

Lemma gaussian_at_le_height (x mu sig : Q) :
  (0 < Q2R sig)%R ->
  (gaussian_at x mu sig <= gaussian_height sig)%R /\
  (gaussian_at x mu sig = gaussian_height sig -> x == mu).
Proof.
  intro Hsig. pose proof (gaussian_height_pos sig Hsig) as Hc.
  unfold gaussian_at. fold (gaussian_height sig).
  set (z := ((Q2R x - Q2R mu) / Q2R sig)%R).
  replace (- z ^ 2 / 2)%R with (- (z ^ 2 / 2))%R by lra.
  assert (Hw : (0 <= z ^ 2 / 2)%R) by (pose proof (pow2_ge_0 z); lra).
  destruct (exp_neg_le_one _ Hw) as [Hle Heq]. split; [nra|].
  intro E. assert (E1 : exp (- (z ^ 2 / 2)) = 1%R) by nra.
  specialize (Heq E1).
  assert (Hz : z = 0%R) by nra.
  apply eqR_Qeq. subst z. unfold Rdiv in Hz.
  apply Rmult_integral in Hz. destruct Hz as [Hz|Hz]; [lra|].
  pose proof (Rinv_0_lt_compat _ Hsig). lra.
Qed.

(** X1: on every domain [x], with a positive spread, [gaussian] returns as
    many values as there are points, each between 0 and the height
    [1 / (sqrt(2 pi) sig)], and the height is the value at every point
    equal to [mu]: no point has a larger value than the centre. *)
Theorem gaussian_peaks_at_mu (x : list Q) (mu sig : Q) :
  0 < sig ->
  length (gaussian x mu sig) = length x /\
  forall i, (i < length x)%nat ->
    (0 <= nth i (gaussian x mu sig) 0 <= gaussian_height sig)%R /\
    (nth i x 0 == mu -> nth i (gaussian x mu sig) 0%R = gaussian_height sig).
Proof.
  intro Hsig.
  assert (HsigR : (0 < Q2R sig)%R).
  { apply Qlt_Rlt in Hsig. replace (Q2R 0) with 0%R in Hsig; [exact Hsig|].
    unfold Q2R. cbn. lra. }
  split; [apply length_map|].
  intros i Hi. unfold gaussian.
  rewrite (nth_map_lt _ _ i 0) by exact Hi.
  destruct (gaussian_at_le_height (nth i x 0) mu sig HsigR) as [Hle _].
  split; [split; [apply Rlt_le, gaussian_at_pos, HsigR|exact Hle]|].
  apply gaussian_at_centre.
Qed.

Lemma gaussian_peaks_at_mu_witness :
  (0 <= nth 1 (gaussian [0; 5; 10]%Q 5%Q (6#10)%Q) 0 <= gaussian_height (6#10)%Q)%R.
Proof.
  apply (gaussian_peaks_at_mu [0; 5; 10] 5 (6#10)); [reflexivity|cbn; lia].
Defined.

(** X2: [gaussian] is symmetric about its centre: the values at
    [mu + d] and at [mu - d] are the same. *)
Theorem gaussian_symmetric (d : list Q) (mu sig : Q) :
  gaussian (map (fun di => mu + di) d) mu sig =
  gaussian (map (fun di => mu - di) d) mu sig.
Proof.
  unfold gaussian. rewrite !map_map. apply map_ext. intro di.
  unfold gaussian_at. rewrite Q2R_plus, Q2R_minus. do 2 f_equal.
  unfold Rdiv. ring.
Qed.

(** ** [np.arange] with a positive step *)

Lemma arange_index_lt (start stop step : Q) (i : nat) :
  0 < step ->
  (i < Z.to_nat (Qceiling ((stop - start) / step)))%nat ->
  start + inject_Z (Z.of_nat i) * step < stop.
Proof.
  intros Hstep Hi.
  set (q := (stop - start) / step) in *.
  assert (Hz : (Z.of_nat i <= Qceiling q - 1)%Z) by lia.
  assert (Hq : inject_Z (Z.of_nat i) < q).
  { eapply Qle_lt_trans; [|apply Qceiling_lt].
    rewrite <- Zle_Qle. exact Hz. }
  assert (Hmul : inject_Z (Z.of_nat i) * step < q * step)
    by (apply Qmult_lt_compat_r; assumption).
  assert (Hqs : q * step == stop - start).
  { subst q. field. intro E. rewrite E in Hstep. discriminate. }
  rewrite Hqs in Hmul. Lqa.lra.
Qed.

Lemma arange_bounds (start stop step : Q) (l : list Q) :
  0 < step -> arange start stop step = Ok l ->
  Forall (fun b => start <= b /\ b < stop) l.
Proof.
  intros Hstep H.
  rewrite arange_nonzero in H
    by (intro E; rewrite E in Hstep; discriminate).
  injection H as <-. apply Forall_forall. intros b Hb.
  apply in_map_iff in Hb. destruct Hb as (i & <- & Hi).
  apply in_seq in Hi. split.
  - pose proof (nat_to_Q_nonneg i) as Hn. unfold nat_to_Q in Hn.
    assert (0 <= inject_Z (Z.of_nat i) * step)
      by (apply Qmult_le_0_compat; [exact Hn|apply Qlt_le_weak, Hstep]).
    Lqa.lra.
  - apply arange_index_lt; [exact Hstep|lia].
Qed.

Lemma arange_nonpositive_empty (start stop step : Q) :
  0 < step -> stop <= start -> arange start stop step = Ok [].
Proof.
  intros Hstep Hle.
  rewrite arange_nonzero
    by (intro E; rewrite E in Hstep; discriminate).
  assert (Hq : (stop - start) / step <= 0).
  { apply Qle_shift_div_r; [exact Hstep|]. Lqa.lra. }
  apply Qceiling_resp_le in Hq. change (Qceiling 0) with 0%Z in Hq.
  replace (Z.to_nat (Qceiling ((stop - start) / step))) with 0%nat by lia.
  reflexivity.
Qed.

Lemma arange_negative_step_empty (start stop step : Q) :
  step < 0 -> start <= stop -> arange start stop step = Ok [].
Proof.
  intros Hstep Hle.
  rewrite arange_nonzero
    by (intro E; rewrite E in Hstep; discriminate).
  assert (Hq : (stop - start) / step <= 0).
  { unfold Qdiv.
    assert (Hinv : / step < 0).
    { assert (H0 : 0 < - step) by Lqa.lra.
      apply Qinv_lt_0_compat in H0.
      assert (E : / - step == - / step).
      { field. intro E. rewrite E in Hstep. discriminate. }
      rewrite E in H0. Lqa.lra. }
    assert (Hd : 0 <= stop - start) by Lqa.lra.
    Lqa.nra. }
  apply Qceiling_resp_le in Hq. change (Qceiling 0) with 0%Z in Hq.
  replace (Z.to_nat (Qceiling ((stop - start) / step))) with 0%nat by lia.
  reflexivity.
Qed.

(** ** [infer_frequency]: the values it can return *)

Lemma index_In {A : Type} (a : list A) (i : nat) (v : A) :
  index a i = Ok v -> In v a.
Proof.
  unfold index. destruct (nth_error a i) as [w|] eqn:E; [|discriminate].
  intros [= <-]. eapply nth_error_In, E.
Qed.

Lemma np_true_divide_range (position : Q) :
  0 <= position -> position < 15 ->
  np_true_divide 1000 position = PosInf \/
  exists f, np_true_divide 1000 position = Finite f /\ 1000 / 15 < f.
Proof.
  intros Hlo Hhi. unfold np_true_divide.
  destruct (Qeq_bool position 0) eqn:E.
  - left. reflexivity.
  - right. eexists. split; [reflexivity|].
    assert (Hne : ~ position == 0).
    { intro H. apply Qeq_bool_iff in H. congruence. }
    assert (Hpos : 0 < position).
    { apply Qle_lteq in Hlo. destruct Hlo as [H|H]; [exact H|].
      exfalso. apply Hne. symmetry. exact H. }
    apply Qlt_shift_div_l; [exact Hpos|].
    assert (E15 : 1000 / 15 * position == 1000 * position / 15) by field.
    rewrite E15. apply Qlt_shift_div_r; [reflexivity|]. Lqa.lra.
Qed.

(** X3: whatever the spikes and the tuning parameters, [infer_frequency]
    returns NaN, positive infinity, or a finite frequency above
    [1000 / 15] Hz: the bins of the second density stop short of 15 ms, so
    no lower frequency can be reported. *)
Theorem infer_frequency_range (spike_times : list Q) (t1 t2 res : Q)
    (prom : option Q) (time_step : Q) :
  infer_frequency spike_times t1 t2 res prom time_step = NaN \/
  infer_frequency spike_times t1 t2 res prom time_step = PosInf \/
  exists f, infer_frequency spike_times t1 t2 res prom time_step = Finite f /\
            1000 / 15 < f.
Proof.
  unfold infer_frequency, infer_frequency_try.
  destruct (peak_location_diffs spike_times t1 res prom) as [diffs|];
    [|left; reflexivity].
  cbn [bind].
  destruct (arange 0 15 time_step) as [bins|] eqn:Ebins; [|left; reflexivity].
  cbn [bind].
  destruct (vstack (map (fun pk => gaussian bins pk t2) diffs)) as [rows|];
    [|left; reflexivity].
  cbn [bind].
  destruct (argmax (sum_axis0 rows)) as [best|]; [|left; reflexivity].
  cbn [bind].
  destruct (index bins best) as [position|] eqn:Eidx; [|left; reflexivity].
  cbn [bind try_except]. right.
  apply index_In in Eidx.
  destruct (Qlt_le_dec 0 time_step) as [Hpos|Hneg].
  - pose proof (arange_bounds 0 15 time_step bins Hpos Ebins) as Hb.
    rewrite Forall_forall in Hb. destruct (Hb position Eidx) as [Hlo Hhi].
    apply np_true_divide_range; assumption.
  - exfalso. unfold arange in Ebins.
    destruct (Qeq_bool time_step 0) eqn:E0; [discriminate|].
    assert (Hlt : time_step < 0).
    { apply Qle_lteq in Hneg. destruct Hneg as [H|H]; [exact H|].
      apply Qeq_bool_iff in H. congruence. }
    pose proof (arange_negative_step_empty 0 15 time_step Hlt) as Hempty.
    unfold arange in Hempty. rewrite E0 in Hempty.
    rewrite Hempty in Ebins by discriminate.
    injection Ebins as <-. contradiction.
Qed.

(** ** [infer_frequency] reads the spike train through its intervals *)

Lemma np_diff_shift (c : Q) (a : list Q) :
  Forall2 Qeq (np_diff (map (fun t => t + c) a)) (np_diff a).
Proof.
  induction a as [|x [|y a] IH]; cbn in *; try constructor.
  - Lqa.lra.
  - exact IH.
Qed.

Lemma gaussian_centre_ext (x : list Q) (mu mu' sig : Q) :
  mu == mu' -> gaussian x mu sig = gaussian x mu' sig.
Proof.
  intro E. unfold gaussian. apply map_ext. intro xi.
  unfold gaussian_at. rewrite (Qeq_eqR mu mu' E). reflexivity.
Qed.

Lemma gaussian_rows_ext (x : list Q) (sig : Q) (isi isi' : list Q) :
  Forall2 Qeq isi isi' ->
  map (fun i => gaussian x i sig) isi = map (fun i => gaussian x i sig) isi'.
Proof.
  induction 1 as [|i i' isi isi' Hi _ IH]; cbn; [reflexivity|].
  rewrite (gaussian_centre_ext x i i' sig Hi), IH. reflexivity.
Qed.


(** X5: with its default tuning parameters [infer_frequency] returns NaN
    on every spike train: a density that sums to one cannot hold two peaks
    of prominence 0.5. *)
Theorem infer_frequency_default_always_nan (spike_times : list Q) :
  infer_frequency spike_times (6#10) (3#10) (1#10) (Some (1#2)) (1#100) = NaN.
Proof.
  apply infer_frequency_half_prominence; unfold Q2R; cbn; lra.
Qed.

(** ** [create_param_range]: the shape of the grid *)

Lemma arange_values (start stop step : Q) (l : list Q) :
  arange start stop step = Ok l ->
  ~ step == 0 /\
  l = map (fun i => start + inject_Z (Z.of_nat i) * step)
          (seq 0 (Z.to_nat (Qceiling ((stop - start) / step)))).
Proof.
  unfold arange. destruct (Qeq_bool step 0) eqn:E; [discriminate|].
  intros [= <-]. split; [|reflexivity].
  intro H. apply Qeq_bool_iff in H. congruence.
Qed.

Lemma grid_size_covers (x0 x1 res : Q) :
  0 < res -> x0 <= x1 ->
  let n := Z.to_nat (Qceiling ((x1 + res - x0) / res)) in
  (1 <= n)%nat /\ x1 + res - x0 <= inject_Z (Z.of_nat n) * res.
Proof.
  intros Hres Hle n.
  set (q := (x1 + res - x0) / res) in *.
  assert (Hne : ~ res == 0) by (intro E; rewrite E in Hres; discriminate).
  assert (Hq1 : 1 <= q).
  { subst q. apply Qle_shift_div_l; [exact Hres|]. Lqa.lra. }
  pose proof (Qle_ceiling q) as Hc.
  assert (Hz : (1 <= Qceiling q)%Z).
  { rewrite Zle_Qle. eapply Qle_trans; [exact Hq1|exact Hc]. }
  split; [subst n; lia|].
  subst n. rewrite Z2Nat.id by lia.
  assert (Hqs : q * res == x1 + res - x0) by (subst q; field; exact Hne).
  rewrite <- Hqs. apply Qmult_le_compat_r; [exact Hc|apply Qlt_le_weak, Hres].
Qed.

(** In exact arithmetic, for a positive step and [x0 <= x1] the grid is
    not empty, starts at [x0], advances by [res], stays inside
    [[x0, x1 + res)], and ends at the first grid point at or above [x1]. *)
Lemma grid_covers_exact (x0 x1 res : Q) :
  0 < res -> x0 <= x1 ->
  exists l,
    create_param_range x0 x1 res = Ok l /\
    l <> [] /\
    nth 0 l 0 == x0 /\
    (forall i, (S i < length l)%nat -> nth (S i) l 0 - nth i l 0 == res) /\
    Forall (fun y => x0 <= y /\ y < x1 + res) l /\
    x1 <= last l 0 /\ last l 0 < x1 + res.
Proof.
  intros Hres Hle.
  assert (Hne : ~ res == 0) by (intro E; rewrite E in Hres; discriminate).
  destruct (grid_size_covers x0 x1 res Hres Hle) as [Hn Hcover].
  unfold create_param_range.
  pose proof (arange_nonzero x0 (x1 + res) res Hne) as Heq.
  set (n := Z.to_nat (Qceiling ((x1 + res - x0) / res))) in *.
  set (g := fun i : nat => x0 + inject_Z (Z.of_nat i) * res) in *.
  assert (Hnth : forall i, (i < n)%nat -> nth i (map g (seq 0 n)) 0 = g i).
  { intros i Hi. rewrite (nth_map_lt _ _ i 0%nat) by (rewrite length_seq; exact Hi).
    rewrite seq_nth by exact Hi. reflexivity. }
  assert (Hlen : length (map g (seq 0 n)) = n)
    by (rewrite length_map, length_seq; reflexivity).
  pose proof (arange_bounds x0 (x1 + res) res _ Hres Heq) as Hbounds.
  exists (map g (seq 0 n)). split; [exact Heq|].
  split; [intro E; apply (f_equal (@length Q)) in E; rewrite Hlen in E; cbn in E; lia|].
  split; [rewrite Hnth by lia; unfold g; cbn; ring|].
  split.
  { intros i Hi. rewrite Hlen in Hi. rewrite !Hnth by lia. unfold g.
    rewrite Nat2Z.inj_succ. unfold Z.succ. rewrite inject_Z_plus. ring. }
  split; [exact Hbounds|].
  assert (Hlast : last (map g (seq 0 n)) 0 = g (n - 1)%nat).
  { destruct n as [|m]; [lia|].
    rewrite seq_S, map_app. cbn [map]. rewrite last_last. cbn [Nat.add].
    f_equal. lia. }
  rewrite Hlast. split.
  - unfold g.
    assert (E : inject_Z (Z.of_nat n) == inject_Z (Z.of_nat (n - 1)) + 1).
    { rewrite <- (inject_Z_plus _ 1). apply inject_Z_injective. lia. }
    rewrite E in Hcover. Lqa.lra.
  - unfold g. apply arange_index_lt; [exact Hres|]. fold n. lia.
Qed.

(** X6: for integers [x0 <= x1] and a positive integer step [res], where
    [np.arange] is exact, the grid is not empty, starts at [x0], advances
    by [res], stays inside [[x0, x1 + res)], and its last element is the
    first grid point at or above [x1]. *)
Theorem create_param_range_covers (x0 x1 res : Z) :
  (0 < res)%Z -> (x0 <= x1)%Z ->
  exists l,
    create_param_range (inject_Z x0) (inject_Z x1) (inject_Z res) = Ok l /\
    l <> [] /\
    nth 0 l 0 == inject_Z x0 /\
    (forall i, (S i < length l)%nat ->
               nth (S i) l 0 - nth i l 0 == inject_Z res) /\
    Forall (fun y => inject_Z x0 <= y /\ y < inject_Z (x1 + res)) l /\
    inject_Z x1 <= last l 0 /\ last l 0 < inject_Z (x1 + res).
Proof.
  intros Hres Hle.
  destruct (grid_covers_exact (inject_Z x0) (inject_Z x1) (inject_Z res))
    as (l & Heq & Hne & Hfirst & Hstep & Hin & Hlo & Hhi).
  - change 0 with (inject_Z 0). rewrite <- Zlt_Qlt. exact Hres.
  - rewrite <- Zle_Qle. exact Hle.
  - exists l. rewrite inject_Z_plus. repeat split; assumption.
Qed.

Lemma create_param_range_covers_witness :
  exists l,
    create_param_range (inject_Z 0) (inject_Z 10) (inject_Z 3) = Ok l /\
    inject_Z 10 <= last l 0 /\ last l 0 < inject_Z (10 + 3).
Proof.
  destruct (create_param_range_covers 0 10 3)
    as (l & Heq & _ & _ & _ & _ & Hlo & Hhi); [reflexivity|discriminate|].
  exists l. auto.
Defined.

(** X7: a zero step raises; with a positive step and [x1 + res <= x0] the
    grid is empty. *)
Theorem create_param_range_degenerate (x0 x1 res : Q) :
  (res == 0 -> create_param_range x0 x1 res = Raise ZeroDivisionError) /\
  (0 < res -> x1 + res <= x0 -> create_param_range x0 x1 res = Ok []).
Proof.
  split.
  - intro E. unfold create_param_range, arange.
    apply Qeq_bool_iff in E. rewrite E. reflexivity.
  - intros Hres Hle. apply arange_nonpositive_empty; assumption.
Qed.

Lemma create_param_range_degenerate_witness :
  create_param_range 5 1 0 = Raise ZeroDivisionError /\
  create_param_range 5 1 2 = Ok [].
Proof.
  split.
  - apply (create_param_range_degenerate 5 1 0). reflexivity.
  - apply (create_param_range_degenerate 5 1 2); [reflexivity|discriminate].
Defined.

Lemma grid_levels_distinct (start step : Q) (n : nat) :
  ~ step == 0 ->
  NoDupA Qeq (map (fun i => start + inject_Z (Z.of_nat i) * step) (seq 0 n)).
Proof.
  intro Hne.
  assert (H : forall m k, NoDupA Qeq
            (map (fun i => start + inject_Z (Z.of_nat i) * step) (seq k m))).
  { induction m as [|m IH]; intro k; cbn [map seq]; constructor; [|apply IH].
    intro Hin. apply InA_alt in Hin. destruct Hin as (y & Hy & Hin).
    apply in_map_iff in Hin. destruct Hin as (j & <- & Hj).
    apply in_seq in Hj.
    assert (E : inject_Z (Z.of_nat j) == inject_Z (Z.of_nat k)).
    { apply (Qmult_inj_r _ _ step Hne). Lqa.lra. }
    rewrite inject_Z_injective in E. lia. }
  apply H.
Qed.

Lemma create_param_range_distinct_levels (x0 x1 res : Q) (l : list Q) :
  create_param_range x0 x1 res = Ok l -> NoDupA Qeq l.
Proof.
  intro H. apply arange_values in H. destruct H as [Hne ->].
  apply grid_levels_distinct, Hne.
Qed.

(** X8: the levels of a grid are pairwise different, so they can key a
    dictionary without collisions. *)
Theorem create_param_range_distinct (x0 x1 res : Q) (l : list Q) :
  create_param_range x0 x1 res = Ok l -> NoDupA Qeq l.
Proof. apply create_param_range_distinct_levels. Qed.

Lemma create_param_range_distinct_witness :
  NoDupA Qeq [0 + 0 * (1#2); 0 + 1 * (1#2); 0 + 2 * (1#2)].
Proof.
  apply (create_param_range_distinct 0 1 (1#2)). reflexivity.
Defined.

(** ** The dictionaries a sweep returns *)

Lemma dict_set_fresh {V : Type} (d : dict V) (k : Q) (v : V) :
  ~ InA Qeq k (dict_keys d) -> dict_set d k v = d ++ [(k, v)].
Proof.
  induction d as [|[k' v'] d IH]; intro Hfresh; cbn; [reflexivity|].
  destruct (Qeq_bool k' k) eqn:E.
  - exfalso. apply Hfresh. cbn. left. apply Qeq_bool_iff in E.
    symmetry. exact E.
  - rewrite IH; [reflexivity|]. intro Hin. apply Hfresh. cbn. right. exact Hin.
Qed.

Lemma dict_set_map_values {V W : Type} (f : V -> W) (d : dict V) (k : Q) (v : V) :
  map (fun kv => (fst kv, f (snd kv))) (dict_set d k v) =
  dict_set (map (fun kv => (fst kv, f (snd kv))) d) k (f v).
Proof.
  induction d as [|[k' v'] d IH]; cbn; [reflexivity|].
  destruct (Qeq_bool k' k); cbn; [reflexivity|]. rewrite IH. reflexivity.
Qed.

Lemma dict_get_map_values {V W : Type} (f : V -> W) (d : dict V) (k : Q) (v : V) :
  dict_get d k = Ok v ->
  dict_get (map (fun kv => (fst kv, f (snd kv))) d) k = Ok (f v).
Proof.
  induction d as [|[k' v'] d IH]; cbn; [discriminate|].
  destruct (Qeq_bool k' k); [intros [= <-]; reflexivity|exact IH].
Qed.

(** A loop that stores one entry per level fills the dictionary with the
    levels, in order, when these are pairwise different and new. *)
Lemma fold_dict_keys {S V : Type} (step : S -> Q -> S) (store : S -> dict V)
    (entry : S -> Q -> V) :
  (forall st level,
      store (step st level) = dict_set (store st) level (entry st level)) ->
  forall levels st,
    NoDupA Qeq levels ->
    Forall (fun k => ~ InA Qeq k levels) (dict_keys (store st)) ->
    dict_keys (store (fold_left step levels st)) =
    dict_keys (store st) ++ levels.
Proof.
  intros Hstep levels. induction levels as [|l levels IH]; intros st Hnd Hnew.
  - cbn. rewrite app_nil_r. reflexivity.
  - cbn [fold_left]. inversion Hnd as [|? ? Hl Hnd']; subst.
    assert (Hfresh : ~ InA Qeq l (dict_keys (store st))).
    { intro Hin. apply InA_alt in Hin. destruct Hin as (k & Hk & Hin).
      rewrite Forall_forall in Hnew. apply (Hnew k Hin).
      left. symmetry. exact Hk. }
    assert (Hkeys : dict_keys (store (step st l)) = dict_keys (store st) ++ [l]).
    { rewrite Hstep, dict_set_fresh by exact Hfresh.
      unfold dict_keys. rewrite map_app. reflexivity. }
    rewrite IH; [|exact Hnd'|].
    + rewrite Hkeys, <- app_assoc. reflexivity.
    + rewrite Hkeys. apply Forall_app. split.
      * eapply Forall_impl; [|exact Hnew]. cbn beta.
        intros k Hk Hin. apply Hk. right. exact Hin.
      * constructor; [exact Hl|constructor].
Qed.

Lemma amplitude_sweep_aligned (model : Model) (unit f0 f1 t_max : Q)
    (levels : list Q) (st : sweep nat) :
  infered_of st =
    map (fun kv => (fst kv, map infer_amplitude (snd kv))) (spike_times_of st) ->
  infered_of (fold_left (amplitude_step model unit f0 f1 t_max) levels st) =
    map (fun kv => (fst kv, map infer_amplitude (snd kv)))
        (spike_times_of (fold_left (amplitude_step model unit f0 f1 t_max)
                                   levels st)).
Proof.
  revert st. induction levels as [|l levels IH]; intros st Hst;
    [exact Hst|].
  cbn [fold_left]. apply IH. unfold amplitude_step.
  destruct (uniform f0 f1 (neurons_N model) (gen st)) as [f g].
  cbn [infered_of spike_times_of].
  rewrite dict_set_map_values, Hst. reflexivity.
Qed.

(** X9: the two dictionaries [evaluate_amplitude_discrimination] returns
    are keyed by the trial amplitudes, in grid order and without
    collisions, and under every amplitude the inferred entry is the list
    of spike counts of the spike trains recorded under it. *)
Theorem amplitude_sweep_dictionaries (model : Model)
    (a0 a1 res unit f0 f1 t_max : Q) (calls0 : list model_call) (g0 : rng)
    (st : sweep nat) :
  evaluate_amplitude_discrimination model a0 a1 res unit f0 f1 t_max calls0 g0
    = Ok st ->
  exists levels,
    create_param_range a0 a1 res = Ok levels /\
    dict_keys (spike_times_of st) = levels /\
    dict_keys (infered_of st) = levels /\
    distinct_keys (infered_of st) /\
    (forall amp trains,
        dict_get (spike_times_of st) amp = Ok trains ->
        dict_get (infered_of st) amp = Ok (map (@length Q) trains)).
Proof.
  intro H. unfold evaluate_amplitude_discrimination in H.
  destruct (create_param_range a0 a1 res) as [levels|] eqn:Elevels;
    [|discriminate].
  cbn [bind] in H. injection H as <-.
  pose proof (create_param_range_distinct_levels a0 a1 res levels Elevels) as Hnd.
  set (init := {| spike_times_of := []; infered_of := [];
                  calls := calls0 ++ [Store "initial"%string]; gen := g0 |}).
  pose proof (amplitude_sweep_aligned model unit f0 f1 t_max levels init eq_refl)
    as Haligned.
  assert (Hkeys : dict_keys (spike_times_of
                    (fold_left (amplitude_step model unit f0 f1 t_max) levels init))
                  = levels).
  { rewrite (fold_dict_keys (amplitude_step model unit f0 f1 t_max)
               spike_times_of
               (fun st amp =>
                  spike_train model
                    (calls st ++
                     amplitude_calls unit t_max amp
                       (fst (uniform f0 f1 (neurons_N model) (gen st)))))).
    - reflexivity.
    - intros s l. unfold amplitude_step.
      destruct (uniform f0 f1 (neurons_N model) (gen s)) as [f g]. reflexivity.
    - exact Hnd.
    - constructor. }
  assert (Hkeys' : dict_keys (infered_of
                     (fold_left (amplitude_step model unit f0 f1 t_max) levels init))
                   = levels).
  { rewrite Haligned. unfold dict_keys in *. rewrite map_map. exact Hkeys. }
  exists levels. split; [reflexivity|]. split; [exact Hkeys|].
  split; [exact Hkeys'|]. split.
  - unfold distinct_keys. rewrite Hkeys'. exact Hnd.
  - intros amp trains Hget. rewrite Haligned.
    apply (dict_get_map_values (map infer_amplitude)). exact Hget.
Qed.

Lemma amplitude_sweep_dictionaries_witness :
  exists st levels,
    evaluate_amplitude_discrimination silent_pair 0 1 (1#2) 1 100 600 10
      [] quarter_steps = Ok st /\
    create_param_range 0 1 (1#2) = Ok levels /\
    dict_keys (infered_of st) = levels.
Proof.
  destruct (evaluate_amplitude_discrimination silent_pair 0 1 (1#2) 1 100 600 10
              [] quarter_steps) as [st|] eqn:E; [|vm_compute in E; discriminate].
  destruct (amplitude_sweep_dictionaries _ _ _ _ _ _ _ _ _ _ st E)
    as (levels & Hlevels & _ & Hkeys & _).
  exists st, levels. auto.
Defined.

Lemma frequency_sweep_aligned (model : Model) (unit a0 a1 t_max t1 : Q)
    (t2 prom : option Q) (infer_res time_step : Q)
    (levels : list Q) (st : sweep np_float) :
  let step := frequency_step model unit a0 a1 t_max (Some t1) t2 prom
                             infer_res time_step in
  let infer := map (infer_frequency_call t1 t2 prom infer_res time_step) in
  infered_of st =
    map (fun kv => (fst kv, infer (snd kv))) (spike_times_of st) ->
  infered_of (fold_left step levels st) =
    map (fun kv => (fst kv, infer (snd kv)))
        (spike_times_of (fold_left step levels st)).
Proof.
  intros step infer. revert st.
  induction levels as [|l levels IH]; intros st Hst; [exact Hst|].
  cbn [fold_left]. apply IH. unfold step, frequency_step.
  destruct (uniform a0 a1 (neurons_N model) (gen st)) as [a g].
  cbn [infered_of spike_times_of].
  rewrite dict_set_map_values, Hst. reflexivity.
Qed.

Lemma frequency_sweep_opt_out (model : Model) (unit a0 a1 t_max : Q)
    (t2 prom : option Q) (infer_res time_step : Q)
    (levels : list Q) (st : sweep np_float) :
  infered_of (fold_left (frequency_step model unit a0 a1 t_max None t2 prom
                                        infer_res time_step) levels st) =
  infered_of st.
Proof.
  revert st. induction levels as [|l levels IH]; intro st; [reflexivity|].
  cbn [fold_left]. rewrite IH. unfold frequency_step.
  destruct (uniform a0 a1 (neurons_N model) (gen st)) as [a g]. reflexivity.
Qed.

(** X10: [evaluate_frequency_discrimination] records the spike trains
    under every trial frequency, in grid order.  Without [t1] no inference
    is made and the inferred mapping stays empty; with [t1] it has the
    same keys, and under every frequency the inferred entry is
    [infer_frequency] applied to each recorded spike train. *)
Theorem frequency_sweep_dictionaries (model : Model)
    (f0 f1 res unit a0 a1 t_max : Q) (t1 t2 prom : option Q)
    (infer_res time_step : Q) (calls0 : list model_call) (g0 : rng)
    (st : sweep np_float) :
  evaluate_frequency_discrimination model f0 f1 res unit a0 a1 t_max
    t1 t2 prom infer_res time_step calls0 g0 = Ok st ->
  exists levels,
    create_param_range f0 f1 res = Ok levels /\
    dict_keys (spike_times_of st) = levels /\
    (t1 = None -> infered_of st = []) /\
    (forall t1v, t1 = Some t1v ->
       dict_keys (infered_of st) = levels /\
       forall freq trains,
         dict_get (spike_times_of st) freq = Ok trains ->
         dict_get (infered_of st) freq =
           Ok (map (infer_frequency_call t1v t2 prom infer_res time_step) trains)).
Proof.
  intro H. unfold evaluate_frequency_discrimination in H.
  destruct (create_param_range f0 f1 res) as [levels|] eqn:Elevels;
    [|discriminate].
  cbn [bind] in H. injection H as <-.
  pose proof (create_param_range_distinct_levels f0 f1 res levels Elevels) as Hnd.
  set (init := {| spike_times_of := []; infered_of := [];
                  calls := calls0 ++ [Store "initial"%string]; gen := g0 |}).
  set (step := frequency_step model unit a0 a1 t_max t1 t2 prom infer_res
                              time_step).
  assert (Hkeys : dict_keys (spike_times_of (fold_left step levels init)) = levels).
  { rewrite (fold_dict_keys step spike_times_of
               (fun st freq =>
                  spike_train model
                    (calls st ++
                     frequency_calls unit t_max freq
                       (fst (uniform a0 a1 (neurons_N model) (gen st)))))).
    - reflexivity.
    - intros s l. unfold step, frequency_step.
      destruct (uniform a0 a1 (neurons_N model) (gen s)) as [a g]. reflexivity.
    - exact Hnd.
    - constructor. }
  exists levels. split; [reflexivity|]. split; [exact Hkeys|]. split.
  - intro E. subst step. rewrite E. apply frequency_sweep_opt_out.
  - intros t1v E. subst step. rewrite E in *.
    pose proof (frequency_sweep_aligned model unit a0 a1 t_max t1v t2 prom
                  infer_res time_step levels init eq_refl) as Haligned.
    cbv zeta in Haligned. split.
    + rewrite Haligned. unfold dict_keys in *. rewrite map_map. exact Hkeys.
    + intros freq trains Hget. rewrite Haligned.
      apply (dict_get_map_values
               (map (infer_frequency_call t1v t2 prom infer_res time_step))).
      exact Hget.
Qed.

Lemma frequency_sweep_dictionaries_witness :
  exists st,
    evaluate_frequency_discrimination silent_pair 100 102 1 1 50 100 10
      None None None (1#4) (1#20) [] quarter_steps = Ok st /\
    infered_of st = [].
Proof.
  destruct (evaluate_frequency_discrimination silent_pair 100 102 1 1 50 100 10
              None None None (1#4) (1#20) [] quarter_steps) as [st|] eqn:E;
    [|vm_compute in E; discriminate].
  destruct (frequency_sweep_dictionaries _ _ _ _ _ _ _ _ _ _ _ _ _ _ _ st E)
    as (levels & _ & _ & Hnone & _).
  exists st. split; [reflexivity|]. apply Hnone. reflexivity.
Defined.

(** ** Persistence: files of different sweeps *)

Lemma string_app_inv_head (s a b : string) :
  (s ++ a = s ++ b)%string -> a = b.
Proof.
  induction s as [|c s IH]; intro H; [exact H|].
  change (String c (s ++ a) = String c (s ++ b))%string in H.
  injection H as H. apply IH, H.
Qed.

Lemma path_join_first_char (dir : string) (c : ascii) (s : string) :
  path_join dir (String c s) =
  if Ascii.eqb c "/" then String c s else (dir ++ "/" ++ String c s)%string.
Proof.
  destruct c as [[] [] [] [] [] [] [] []]; reflexivity.
Qed.

(** The amplitude file and the frequency file of a simulation are
    different files. *)
Lemma pkl_path_types_differ (sim_name : string) :
  pkl_path sim_name "A" <> pkl_path sim_name "f".
Proof.
  unfold pkl_path. destruct sim_name as [|c s].
  - cbn. discriminate.
  - change (String c s ++ "_" ++ "A" ++ ".pkl")%string
      with (String c (s ++ "_A.pkl")).
    change (String c s ++ "_" ++ "f" ++ ".pkl")%string
      with (String c (s ++ "_f.pkl")).
    rewrite !path_join_first_char.
    destruct (Ascii.eqb c "/"); intro H.
    + injection H as H. apply string_app_inv_head in H. discriminate.
    + apply string_app_inv_head in H.
      change ("/" ++ String c (s ++ "_A.pkl"))%string
        with (String "/" (String c (s ++ "_A.pkl"))) in H.
      change ("/" ++ String c (s ++ "_f.pkl"))%string
        with (String "/" (String c (s ++ "_f.pkl"))) in H.
      injection H as H.
      apply string_app_inv_head in H. discriminate.
Qed.

Section PersistenceFiles.
Import stdpp.base stdpp.gmap stdpp.strings.

Context {SpikeTimes InferedValues : Type}.
Variable pickle_dumps : SpikeTimes * InferedValues -> list Byte.byte.
Variable pickle_loads : list Byte.byte -> result (SpikeTimes * InferedValues).

Hypothesis pickle_round_trip :
  forall obj, pickle_loads (pickle_dumps obj) = Ok obj.

Lemma save_keeps_can_create (sim_name sim_type : string)
    (spike_times : SpikeTimes) (infered_values : InferedValues)
    (fs fs' : file_system) :
  save pickle_dumps sim_name sim_type spike_times infered_values fs = Ok fs' ->
  can_create fs' = can_create fs /\
  files fs' =
    <[pkl_path sim_name sim_type := pickle_dumps (spike_times, infered_values)]>
      (files fs).
Proof.
  unfold save. destruct (can_create fs (pkl_path sim_name sim_type));
    [|discriminate].
  intros [= <-]. split; reflexivity.
Qed.

(** X12: a second [save] under the same name and type replaces the first:
    [load] returns the pair saved last. *)
Theorem save_overwrites (sim_name sim_type : string)
    (first_times last_times : SpikeTimes)
    (first_values last_values : InferedValues)
    (fs fs1 fs2 : file_system) :
  save pickle_dumps sim_name sim_type first_times first_values fs = Ok fs1 ->
  save pickle_dumps sim_name sim_type last_times last_values fs1 = Ok fs2 ->
  load pickle_loads sim_name sim_type fs2 = Ok (last_times, last_values).
Proof.
  intros _ H2. unfold load.
  destruct (save_keeps_can_create _ _ _ _ _ _ H2) as [_ ->].
  rewrite lookup_insert_eq. apply pickle_round_trip.
Qed.

(** X13: the amplitude sweep and the frequency sweep of one simulation do
    not overwrite each other: after [save_amplitude] and then
    [save_frequency] under the same name, [load_amplitude] and
    [load_frequency] return the two pairs saved. *)
Theorem amplitude_and_frequency_files_coexist (sim_name : string)
    (amp_times freq_times : SpikeTimes)
    (infered_amplitude infered_frequency : InferedValues)
    (fs fs1 fs2 : file_system) :
  save_amplitude pickle_dumps sim_name amp_times infered_amplitude fs = Ok fs1 ->
  save_frequency pickle_dumps sim_name freq_times infered_frequency fs1 = Ok fs2 ->
  load_amplitude pickle_loads sim_name fs2 = Ok (amp_times, infered_amplitude) /\
  load_frequency pickle_loads sim_name fs2 = Ok (freq_times, infered_frequency).
Proof.
  unfold save_amplitude, save_frequency, load_amplitude, load_frequency.
  intros H1 H2.
  destruct (save_keeps_can_create _ _ _ _ _ _ H1) as [_ Hf1].
  destruct (save_keeps_can_create _ _ _ _ _ _ H2) as [_ Hf2].
  unfold load. rewrite Hf2, Hf1. split.
  - rewrite lookup_insert_ne
      by (intro E; apply (pkl_path_types_differ sim_name); symmetry; exact E).
    rewrite lookup_insert_eq. apply pickle_round_trip.
  - rewrite lookup_insert_eq. apply pickle_round_trip.
Qed.

End PersistenceFiles.

Lemma two_bytes_round_trip :
  forall obj, two_bytes_loads (two_bytes_dumps obj) = Ok obj.
Proof. intros [a b]. reflexivity. Qed.

Lemma save_overwrites_witness :
  exists fs1 fs2,
    save two_bytes_dumps "sweep" "A" Byte.x01 Byte.x02 empty_save_data = Ok fs1 /\
    save two_bytes_dumps "sweep" "A" Byte.x03 Byte.x04 fs1 = Ok fs2 /\
    load two_bytes_loads "sweep" "A" fs2 = Ok (Byte.x03, Byte.x04).
Proof.
  eexists. eexists. split; [reflexivity|]. split; [reflexivity|].
  eapply (save_overwrites two_bytes_dumps two_bytes_loads two_bytes_round_trip
           "sweep" "A" Byte.x01 Byte.x03 Byte.x02 Byte.x04 empty_save_data);
    reflexivity.
Defined.

Lemma amplitude_and_frequency_files_coexist_witness :
  exists fs1 fs2,
    save_amplitude two_bytes_dumps "sweep" Byte.x01 Byte.x02 empty_save_data
      = Ok fs1 /\
    save_frequency two_bytes_dumps "sweep" Byte.x03 Byte.x04 fs1 = Ok fs2 /\
    load_amplitude two_bytes_loads "sweep" fs2 = Ok (Byte.x01, Byte.x02) /\
    load_frequency two_bytes_loads "sweep" fs2 = Ok (Byte.x03, Byte.x04).
Proof.
  eexists. eexists. split; [reflexivity|]. split; [reflexivity|].
  eapply (amplitude_and_frequency_files_coexist two_bytes_dumps two_bytes_loads
           two_bytes_round_trip "sweep" Byte.x01 Byte.x03 Byte.x02 Byte.x04
           empty_save_data);
    reflexivity.
Defined.
